(** * A persistent rope: shallow embedding of [main.go] and its properties

    The Go package implements a rope over an arbitrary element type.  A
    node of type [*Rope[T]] carries an inline buffer ([value]), a cached
    [length], two child pointers and a pointer to the shared settings.
    The code uses [value == nil] as the mark of a split (internal) node.

    Modelling choices, all taken from the source:
    - [int] is a 64-bit signed integer: an element of [Z], with the
      wrap-around of [+] and [-] written out ([add], [sub]);
    - a slice is [nil] or a window on a backing array: its visible
      elements and the spare capacity behind them ([s[:k]] may reach into
      the spare capacity, [s[k:]] may not go past the length);
    - a pointer to a node is [null] or a node; field access through
      [null] panics.  The settings pointer is modelled by the record it
      points to: [NewRope] reads through it at once, and no operation
      writes through it;
    - a run ends with a value ([Ok]), with a run-time panic ([Panic]), or
      the recursion of [NewRope] exceeds the depth [fuel] ([Timeout]);
    - methods that write into a destination slice ([Copy], [CopySlice])
      take the destination window and return its new contents;
    - [adjust] and [Rebalance] overwrite the node they are called on and
      are modelled as returning the node's new state.  No operation of
      the package places one node twice in the same tree, so a tree of
      nodes represents the heap reachable from a root;
    - [Insert] and [Remove] assign only to the node ([changed]) and the
      buffer ([newValue]) they allocate themselves, and the join writes
      into a buffer it has just made: the receiver after a call is the
      receiver before it, and a function from the receiver to the
      returned rope represents the call. *)

From Stdlib Require Import ZArith List Bool Lia SpecFloat.
Import ListNotations.

Set Implicit Arguments.
Local Open Scope Z_scope.

(** ** Outcomes of a run *)

Inductive result (A : Type) : Type :=
| Ok (a : A)
| Panic
| Timeout.

Arguments Ok {A} a.
Arguments Panic {A}.
Arguments Timeout {A}.

Definition bind {A B : Type} (m : result A) (k : A -> result B) : result B :=
  match m with
  | Ok a => k a
  | Panic => Panic
  | Timeout => Timeout
  end.

Notation "x <- m ;; k" := (bind m (fun x => k))
  (at level 61, m at next level, right associativity).

(** ** Machine integers *)

Definition max_int : Z := 2 ^ 63 - 1.
Definition min_int : Z := - 2 ^ 63.

Definition wrap (z : Z) : Z := (z + 2 ^ 63) mod 2 ^ 64 - 2 ^ 63.

Definition add (a b : Z) : Z := wrap (a + b).
Definition sub (a b : Z) : Z := wrap (a - b).

(** ** Settings *)

Section WithFloat.

(** [float32] and the comparison of a quotient of two converted lengths
    with the ratio are kept abstract: [ratio_gt a b x] stands for
    [float32(a) / float32(b) > x]. *)
Variable float32 : Type.
Variable ratio_gt : Z -> Z -> float32 -> bool.

Record Settings : Type := mkSettings {
  SplitLength : Z;
  JoinLength : Z;
  Rebalance_ratio : float32
}.

Section WithElem.

Variable T : Type.
(** The zero value of [T], which [make] fills a new buffer with. *)
Variable zero : T.

(** ** Slices *)

Inductive slice : Type :=
| nil_slice
| mk_slice (elems spare : list T).

Definition elems_of (s : slice) : list T :=
  match s with
  | nil_slice => []
  | mk_slice e _ => e
  end.

Definition lenl (l : list T) : Z := Z.of_nat (length l).

Definition len (s : slice) : Z := lenl (elems_of s).

Definition is_nil (s : slice) : bool :=
  match s with
  | nil_slice => true
  | mk_slice _ _ => false
  end.

(** A buffer obtained from [make] has no spare capacity. *)
Definition fresh (l : list T) : slice := mk_slice l [].

Definition take (k : Z) (l : list T) : list T := firstn (Z.to_nat k) l.
Definition drop (k : Z) (l : list T) : list T := skipn (Z.to_nat k) l.

(** [make([]T, n)] *)
Definition make (n : Z) : result (list T) :=
  if n <? 0 then Panic else Ok (repeat zero (Z.to_nat n)).

(** [s[:k]] on a non-nil slice: [k] may go up to the capacity. *)
Definition slice_to (e sp : list T) (k : Z) : result slice :=
  if (0 <=? k) && (k <=? lenl e + lenl sp)
  then Ok (mk_slice (take k (e ++ sp)) (drop k (e ++ sp)))
  else Panic.

(** [s[k:]] on a non-nil slice: [k] may go up to the length. *)
Definition slice_from (e sp : list T) (k : Z) : result slice :=
  if (0 <=? k) && (k <=? lenl e)
  then Ok (mk_slice (drop k e) sp)
  else Panic.

(** [s[a:b]] on a non-nil slice. *)
Definition slice_range (e sp : list T) (a b : Z) : result slice :=
  if (0 <=? a) && (a <=? b) && (b <=? lenl e + lenl sp)
  then Ok (mk_slice (take (b - a) (drop a (e ++ sp))) (drop b (e ++ sp)))
  else Panic.

(** Destination windows are cut from buffers that [make] returned, so
    their capacity ends where their length ends. *)
Definition window_from (dst : list T) (k : Z) : result (list T) :=
  if (0 <=? k) && (k <=? lenl dst) then Ok (drop k dst) else Panic.

Definition window_to (dst : list T) (k : Z) : result (list T) :=
  if (0 <=? k) && (k <=? lenl dst) then Ok (take k dst) else Panic.

(** [copy(dst, src)]: the first [min(len(dst), len(src))] elements of
    [dst] are overwritten. *)
Definition copy (dst src : list T) : list T :=
  firstn (length dst) src ++ skipn (length src) dst.

(** ** Nodes *)

Inductive Rope : Type :=
| null
| mk (value : slice) (length : Z) (left right : Rope) (settings : Settings).

(** [r.length] *)
Definition length_of (r : Rope) : result Z :=
  match r with
  | null => Panic
  | mk _ n _ _ _ => Ok n
  end.

(** ** [bound] *)

Definition bound (start end_ length : Z) : Z * Z :=
  let start := if start <? 0 then 0
               else if start >? length then length else start in
  let end_ := if end_ <? 0 then 0
              else if end_ >? length then length else end_ in
  (start, end_).

(** ** [Copy] *)

Fixpoint Copy (r : Rope) (dst : list T) : result (list T) :=
  match r with
  | null => Panic
  | mk v _ l rt _ =>
    match v with
    | mk_slice e _ => Ok (copy dst e)
    | nil_slice =>
      dst1 <- Copy l dst ;;
      ll <- length_of l ;;
      w <- window_from dst1 ll ;;
      w' <- Copy rt w ;;
      Ok (take ll dst1 ++ w')
    end
  end.

(** ** [Value] *)

Definition Value (r : Rope) : result (list T) :=
  n <- length_of r ;;
  value <- make n ;;
  Copy r value.

(** ** [adjust] and [NewRope]

    [adjust] calls [NewRope] and [NewRope] calls [adjust]; [adjust_with]
    is the body of [adjust] with the constructor it calls as a
    parameter. *)

Definition adjust_with (new : slice -> Settings -> result Rope) (r : Rope)
  : result Rope :=
  match r with
  | null => Panic
  | mk v n l rt st =>
    match v with
    | mk_slice e sp =>
      if n >? SplitLength st then
        lv <- slice_to e sp (Z.quot n 2) ;;
        l' <- new lv st ;;
        rv <- slice_from e sp (Z.quot n 2) ;;
        r' <- new rv st ;;
        Ok (mk nil_slice n l' r' st)
      else Ok r
    | nil_slice =>
      if n <? JoinLength st then
        buf <- make n ;;
        buf1 <- Copy l buf ;;
        ll <- length_of l ;;
        w <- window_to buf1 ll ;;
        w' <- Copy rt w ;;
        Ok (mk (fresh (w' ++ drop ll buf1)) n null null st)
      else Ok r
    end
  end.

Fixpoint NewRope (fuel : nat) (value : slice) (st : Settings) : result Rope :=
  match fuel with
  | O => Timeout
  | S fuel' => adjust_with (NewRope fuel') (mk value (len value) null null st)
  end.

Definition adjust (fuel : nat) (r : Rope) : result Rope :=
  adjust_with (NewRope fuel) r.

(** ** [Remove] *)

Fixpoint Remove (fuel : nat) (r : Rope) (start end_ : Z) : result Rope :=
  if start =? end_ then Ok r else
  match r with
  | null => Panic
  | mk v n l rt st =>
    match v with
    | mk_slice e sp =>
      newValue <- make (sub n (sub end_ start)) ;;
      a <- slice_to e sp start ;;
      let newValue := copy newValue (elems_of a) in
      w <- window_from newValue start ;;
      b <- slice_from e sp end_ ;;
      let newValue := take start newValue ++ copy w (elems_of b) in
      NewRope fuel (fresh newValue) st
    | nil_slice =>
      ll <- length_of l ;;
      let '(leftStart, leftEnd) := bound start end_ ll in
      cl <- Remove fuel l leftStart leftEnd ;;
      rl <- length_of rt ;;
      let '(rightStart, rightEnd) := bound (sub start ll) (sub end_ ll) rl in
      cr <- Remove fuel rt rightStart rightEnd ;;
      cll <- length_of cl ;;
      crl <- length_of cr ;;
      adjust fuel (mk nil_slice (add cll crl) cl cr st)
    end
  end.

(** ** [Insert] *)

Fixpoint Insert (fuel : nat) (r : Rope) (index : Z) (insertion : slice)
  : result Rope :=
  match r with
  | null => Panic
  | mk v n l rt st =>
    match v with
    | mk_slice e sp =>
      newValue <- make (add n (len insertion)) ;;
      a <- slice_to e sp index ;;
      let newValue := copy newValue (elems_of a) in
      w <- window_from newValue index ;;
      let newValue := take index newValue ++ copy w (elems_of insertion) in
      w2 <- window_from newValue (add index (len insertion)) ;;
      b <- slice_from e sp index ;;
      let newValue :=
        take (add index (len insertion)) newValue ++ copy w2 (elems_of b) in
      NewRope fuel (fresh newValue) st
    | nil_slice =>
      let n' := add n (len insertion) in
      ll <- length_of l ;;
      if index <? ll then
        cl <- Insert fuel l index insertion ;;
        Ok (mk nil_slice n' cl rt st)
      else
        cr <- Insert fuel rt (sub index ll) insertion ;;
        Ok (mk nil_slice n' l cr st)
    end
  end.

(** ** [CopySlice] and [Slice] *)

Fixpoint CopySlice (r : Rope) (dst : list T) (start end_ : Z)
  : result (list T) :=
  if start =? end_ then Ok dst else
  match r with
  | null => Panic
  | mk v _ l rt _ =>
    match v with
    | mk_slice e sp =>
      s <- slice_range e sp start end_ ;;
      Ok (copy dst (elems_of s))
    | nil_slice =>
      ll <- length_of l ;;
      let '(leftStart, leftEnd) := bound start end_ ll in
      dst1 <- CopySlice l dst leftStart leftEnd ;;
      rl <- length_of rt ;;
      let '(rightStart, rightEnd) := bound (sub start ll) (sub end_ ll) rl in
      w <- window_from dst1 (sub leftEnd leftStart) ;;
      w' <- CopySlice rt w rightStart rightEnd ;;
      Ok (take (sub leftEnd leftStart) dst1 ++ w')
    end
  end.

Definition Slice (r : Rope) (start end_ : Z) : result (list T) :=
  value <- make (sub end_ start) ;;
  CopySlice r value start end_.

(** ** [Length] *)

Definition Length (r : Rope) : result Z := length_of r.

(** ** [Rebalance] *)

Fixpoint Rebalance (fuel : nat) (r : Rope) : result Rope :=
  match r with
  | null => Panic
  | mk v n l rt st =>
    match v with
    | mk_slice _ _ => Ok r
    | nil_slice =>
      ll <- length_of l ;;
      rl <- length_of rt ;;
      if ratio_gt ll rl (Rebalance_ratio st)
         || ratio_gt rl ll (Rebalance_ratio st)
      then
        value <- Value r ;;
        NewRope fuel (fresh value) st
      else
        l' <- Rebalance fuel l ;;
        r' <- Rebalance fuel rt ;;
        Ok (mk nil_slice n l' r' st)
    end
  end.

(** ** The data model of the specification

    [contents] is the sequence a node represents (its leaves read from
    left to right); [lenf] reads the cached [length] field. *)

Fixpoint contents (r : Rope) : list T :=
  match r with
  | null => []
  | mk v _ l rt _ =>
    match v with
    | mk_slice e _ => e
    | nil_slice => contents l ++ contents rt
    end
  end.

Definition lenf (r : Rope) : Z :=
  match r with
  | null => 0
  | mk _ n _ _ _ => n
  end.

Definition settings_of (r : Rope) : option Settings :=
  match r with
  | null => None
  | mk _ _ _ _ st => Some st
  end.

(** Every node reachable from [r], the root first. *)
Fixpoint nodes (r : Rope) : list Rope :=
  match r with
  | null => []
  | mk _ _ l rt _ => r :: nodes l ++ nodes rt
  end.

(** The two shapes of a node: a Leaf has a non-nil buffer and no
    children, an Internal node has a nil buffer and both children. *)
Definition is_Leaf (r : Rope) : Prop :=
  match r with
  | mk (mk_slice _ _) _ null null _ => True
  | _ => False
  end.

Definition is_Internal (r : Rope) : Prop :=
  match r with
  | mk nil_slice _ (mk _ _ _ _ _) (mk _ _ _ _ _) _ => True
  | _ => False
  end.

(** The cached length of one node is exact. *)
Definition length_exact (r : Rope) : Prop :=
  lenf r = lenl (contents r) /\
  match r with
  | null => True
  | mk v n l rt _ =>
    match v with
    | mk_slice e _ => n = lenl e
    | nil_slice =>
      forall ll rl, length_of l = Ok ll -> length_of rt = Ok rl -> n = ll + rl
    end
  end.

(** A well-formed rope: every node has one of the two shapes and an
    exact cached length. *)
Fixpoint wf (r : Rope) : Prop :=
  match r with
  | null => False
  | mk v n l rt _ =>
    match v with
    | mk_slice e _ => n = lenl e /\ l = null /\ rt = null
    | nil_slice => wf l /\ wf rt /\ n = lenf l + lenf rt
    end
  end.

(** Every node of [r] points to the settings [st]. *)
Fixpoint uses (st : Settings) (r : Rope) : Prop :=
  match r with
  | null => True
  | mk _ _ l rt st' => st' = st /\ uses st l /\ uses st rt
  end.

(** The ropes the package hands out under the settings [st], in runs
    that stay within [int]: returned by [NewRope] for a slice satisfying
    [P], or by [Insert] or [Remove], with any arguments, on a rope handed
    out before, where every slice passed in and every rope returned
    holds at most [max_int] elements.  The bound on the ropes is a
    restriction: for elements of size zero the package can return a
    rope of more elements, and [Insert] then wraps the cached length. *)
Inductive produced (P : slice -> Prop) (st : Settings) : Rope -> Prop :=
| produced_NewRope (fuel : nat) (v : slice) (r : Rope) :
    P v -> len v <= max_int ->
    NewRope fuel v st = Ok r ->
    produced P st r
| produced_Insert (fuel : nat) (r : Rope) (index : Z) (insertion : slice)
    (r' : Rope) :
    produced P st r ->
    len insertion <= max_int ->
    Insert fuel r index insertion = Ok r' ->
    lenl (contents r') <= max_int ->
    produced P st r'
| produced_Remove (fuel : nat) (r : Rope) (start end_ : Z) (r' : Rope) :
    produced P st r ->
    Remove fuel r start end_ = Ok r' ->
    lenl (contents r') <= max_int ->
    produced P st r'.

Definition non_nil (v : slice) : Prop := is_nil v = false.

(** A node has exactly one of the two shapes. *)
Definition one_shape (r : Rope) : Prop :=
  (is_Leaf r /\ ~ is_Internal r) \/ (is_Internal r /\ ~ is_Leaf r).

(** The node that [NewRope] returns for a nil slice when the join does
    not fire: marked as split, without children. *)
Definition childless (st : Settings) : Rope := mk nil_slice 0 null null st.

(** ** [maxDepth], the helper of the package's tests *)

Fixpoint maxDepth (r : Rope) : result Z :=
  match r with
  | null => Panic
  | mk v _ l rt _ =>
    match v with
    | mk_slice _ _ => Ok 1
    | nil_slice =>
      leftDepth <- maxDepth l ;;
      rightDepth <- maxDepth rt ;;
      if leftDepth >? rightDepth then Ok (add 1 leftDepth)
      else Ok (add 1 rightDepth)
    end
  end.

(** ** The thresholds of the settings, node by node *)

(** A node with a buffer holds at most [SplitLength] elements. *)
Definition leaf_within (st : Settings) (r : Rope) : Prop :=
  match r with
  | mk (mk_slice e _) _ _ _ _ => lenl e <= SplitLength st
  | _ => True
  end.

(** A node marked as split has a cached length of at least [least]. *)
Definition internal_above (least : Z) (r : Rope) : Prop :=
  match r with
  | mk nil_slice n _ _ _ => least <= n
  | _ => True
  end.

End WithElem.
End WithFloat.

(** ** The settings and inputs of the package's tests *)

Module Tests.

(** [float32] is IEEE 754 binary32: 24 bits of precision, infinities at
    exponent 128, rounding to nearest even.  A conversion from [int]
    rounds; a quotient by zero is an infinity, or not a number for
    [0 / 0], and not a number compares false. *)
Definition float32 : Type := spec_float.

(** [float32(n)] *)
Definition float32_of_int (n : Z) : float32 :=
  binary_normalize 24 128 n 0 false.

(** [x / y] *)
Definition float32_div (x y : float32) : float32 := SFdiv 24 128 x y.

(** The constant [num / den] as a [float32], for integers that a
    [float32] holds exactly: the decimal [1.001] is [1001 / 1000]. *)
Definition float32_const (num den : Z) : float32 :=
  float32_div (float32_of_int num) (float32_of_int den).

(** [float32(a) / float32(b) > x] *)
Definition float32_ratio_gt (a b : Z) (x : float32) : bool :=
  SFltb x (float32_div (float32_of_int a) (float32_of_int b)).

Definition DefaultSettings : Settings float32 :=
  mkSettings 400 200 (float32_const 3 2).

Definition testSettings : Settings float32 :=
  mkSettings 4 2 (float32_const 1001 1000).

(** Wider thresholds, to let a join meet two non-empty children. *)
Definition wideSettings : Settings float32 :=
  mkSettings 8 4 (float32_const 1001 1000).

(** Thresholds of a rope that never joins. *)
Definition noJoinSettings : Settings float32 :=
  mkSettings 4 0 (float32_const 1001 1000).

(** Thresholds that satisfy [SplitLength > JoinLength] and allow no
    element in a Leaf. *)
Definition zeroSplitSettings : Settings float32 :=
  mkSettings 0 (-1) (float32_const 1001 1000).

(** A split threshold that no slice exceeds. *)
Definition hugeSettings : Settings float32 :=
  mkSettings max_int 0 (float32_const 1001 1000).

(** [make([]struct{}, 1 << 62)]: elements of size zero take no memory. *)
Definition hugeValue : list unit := repeat tt (Z.to_nat (2 ^ 62)).

(** A split threshold of [2^62], and no join. *)
Definition halfSettings : Settings float32 :=
  mkSettings (2 ^ 62) 0 (float32_const 1001 1000).

(** [make([]struct{}, math.MaxInt64)] *)
Definition maxValue : list unit := repeat tt (Z.to_nat max_int).

Definition originalValue : list Z := [0; 1; 2; 3; 4; 5; 6; 7].

(** A sequence without the zero value of its element type. *)
Definition tens : list Z := [10; 11; 12; 13; 14; 15; 16; 17].

Definition leaf (st : Settings float32) (e : list Z) : Rope float32 Z :=
  mk (fresh e) (lenl e) (null float32 Z) (null float32 Z) st.

Definition internal (st : Settings float32) (l rt : Rope float32 Z) : Rope float32 Z :=
  mk (nil_slice Z) (lenf l + lenf rt) l rt st.

(** [NewRope(tens, testSettings)] *)
Definition tensRope : Rope float32 Z :=
  mk (nil_slice Z) 8
     (mk (mk_slice [10; 11; 12; 13] [14; 15; 16; 17]) 4 (null float32 Z) (null float32 Z)
         testSettings)
     (leaf testSettings [14; 15; 16; 17])
     testSettings.

End Tests.

(** * Properties *)

(** ** Machine integers and lists *)

Lemma wrap_id (z : Z) : min_int <= z <= max_int -> wrap z = z.
Proof.
  unfold wrap, min_int, max_int. intros H.
  rewrite Z.mod_small; lia.
Qed.

Lemma add_id (a b : Z) : min_int <= a + b <= max_int -> add a b = a + b.
Proof. apply wrap_id. Qed.

Lemma sub_id (a b : Z) : min_int <= a - b <= max_int -> sub a b = a - b.
Proof. apply wrap_id. Qed.

Lemma max_int_pos : 0 < max_int.
Proof. reflexivity. Qed.

Lemma min_int_neg : min_int = - max_int - 1.
Proof. reflexivity. Qed.

Section Lists.

Variable T : Type.
Implicit Types l dst src : list T.

Lemma lenl_nonneg l : 0 <= lenl l.
Proof. unfold lenl. lia. Qed.

Lemma lenl_nil : lenl (@nil T) = 0.
Proof. reflexivity. Qed.

Lemma lenl_app l1 l2 : lenl (l1 ++ l2) = lenl l1 + lenl l2.
Proof. unfold lenl. rewrite length_app. lia. Qed.

Lemma lenl_take k l : 0 <= k <= lenl l -> lenl (take k l) = k.
Proof. unfold lenl, take. intros H. rewrite length_firstn. lia. Qed.

Lemma lenl_drop k l : 0 <= k <= lenl l -> lenl (drop k l) = lenl l - k.
Proof. unfold lenl, drop. intros H. rewrite length_skipn. lia. Qed.

Lemma lenl_repeat (x : T) n : 0 <= n -> lenl (repeat x (Z.to_nat n)) = n.
Proof. unfold lenl. intros H. rewrite repeat_length. lia. Qed.

Lemma take_drop k l : take k l ++ drop k l = l.
Proof. apply firstn_skipn. Qed.

Lemma take_all k l : lenl l <= k -> take k l = l.
Proof. unfold lenl, take. intros H. apply firstn_all2. lia. Qed.

Lemma drop_all k l : lenl l <= k -> drop k l = [].
Proof. unfold lenl, drop. intros H. apply skipn_all2. lia. Qed.

Lemma take_0 k l : k <= 0 -> take k l = [].
Proof. unfold take. intros H. replace (Z.to_nat k) with O by lia. reflexivity. Qed.

Lemma drop_0 k l : k <= 0 -> drop k l = l.
Proof. unfold drop. intros H. replace (Z.to_nat k) with O by lia. reflexivity. Qed.

Lemma take_app_le k l1 l2 : k <= lenl l1 -> take k (l1 ++ l2) = take k l1.
Proof.
  unfold lenl, take. intros H. rewrite firstn_app.
  replace (Z.to_nat k - length l1)%nat with O by lia.
  simpl. apply app_nil_r.
Qed.

Lemma drop_app_le k l1 l2 :
  k <= lenl l1 -> drop k (l1 ++ l2) = drop k l1 ++ l2.
Proof.
  unfold lenl, drop. intros H. rewrite skipn_app.
  replace (Z.to_nat k - length l1)%nat with O by lia. reflexivity.
Qed.

Lemma take_app_ge k l1 l2 :
  lenl l1 <= k -> take k (l1 ++ l2) = l1 ++ take (k - lenl l1) l2.
Proof.
  unfold lenl, take. intros H. rewrite firstn_app.
  rewrite firstn_all2 by lia.
  replace (Z.to_nat (k - Z.of_nat (length l1)))
    with (Z.to_nat k - length l1)%nat by lia.
  reflexivity.
Qed.

Lemma drop_app_ge k l1 l2 :
  lenl l1 <= k -> drop k (l1 ++ l2) = drop (k - lenl l1) l2.
Proof.
  unfold lenl, drop. intros H. rewrite skipn_app.
  rewrite skipn_all2 by lia.
  replace (Z.to_nat (k - Z.of_nat (length l1)))
    with (Z.to_nat k - length l1)%nat by lia.
  reflexivity.
Qed.

Lemma take_take j k l : 0 <= j <= k -> take j (take k l) = take j l.
Proof.
  unfold take. intros H. rewrite firstn_firstn.
  replace (Nat.min (Z.to_nat j) (Z.to_nat k)) with (Z.to_nat j) by lia.
  reflexivity.
Qed.

Lemma drop_drop j k l : 0 <= j -> 0 <= k -> drop j (drop k l) = drop (k + j) l.
Proof.
  unfold drop. intros Hj Hk. rewrite skipn_skipn.
  replace (Z.to_nat (k + j)) with (Z.to_nat j + Z.to_nat k)%nat by lia.
  reflexivity.
Qed.

Lemma take_lenl_app l1 l2 : take (lenl l1) (l1 ++ l2) = l1.
Proof. rewrite take_app_le by lia. apply take_all. lia. Qed.

Lemma drop_lenl_app l1 l2 : drop (lenl l1) (l1 ++ l2) = l2.
Proof.
  rewrite drop_app_ge by lia. apply drop_0. lia.
Qed.

(** [copy] keeps the length of the destination. *)
Lemma lenl_copy dst src : lenl (copy dst src) = lenl dst.
Proof.
  unfold lenl, copy. rewrite length_app, length_firstn, length_skipn. lia.
Qed.

(** A source that fits is written in full, in front of the rest of the
    destination. *)
Lemma copy_fits dst src :
  lenl src <= lenl dst -> copy dst src = src ++ drop (lenl src) dst.
Proof.
  unfold lenl, copy, drop. intros H.
  rewrite firstn_all2 by lia. now rewrite Nat2Z.id.
Qed.


Lemma copy_exact dst src : lenl src = lenl dst -> copy dst src = src.
Proof.
  intros H. rewrite copy_fits by lia. rewrite drop_all by lia.
  apply app_nil_r.
Qed.

Lemma copy_nil_src dst : copy dst [] = dst.
Proof. unfold copy. now rewrite firstn_nil. Qed.

End Lists.

(** ** Runs *)

Lemma bind_Ok (A B : Type) (m : result A) (k : A -> result B) (b : B) :
  bind m k = Ok b -> exists a, m = Ok a /\ k a = Ok b.
Proof. destruct m; simpl; intros H; try discriminate. now exists a. Qed.

Lemma bind_not_Timeout (A B : Type) (m : result A) (k : A -> result B) :
  m <> Timeout -> (forall a, m = Ok a -> k a <> Timeout) ->
  bind m k <> Timeout.
Proof. destruct m; simpl; intros Hm Hk; [now apply Hk | discriminate | now elim Hm]. Qed.

(** Splits a hypothesis [x <- m ;; k = Ok b] into its two runs. *)
Tactic Notation "bind_inv" hyp(H) :=
  let a := fresh "a" in
  let Ha := fresh "Ha" in
  apply bind_Ok in H; destruct H as (a & Ha & H).

Tactic Notation "bind_inv" hyp(H) "as" ident(a) ident(Ha) :=
  apply bind_Ok in H; destruct H as (a & Ha & H).

Section Correctness.

Variable float32 : Type.
Variable T : Type.
Variable zero : T.

Local Abbreviation rope := (Rope float32 T).
Local Abbreviation settings := (Settings float32).
Implicit Types r l rt : rope.
Implicit Types st : settings.
Implicit Types dst e sp : list T.

(** ** Slices and buffers *)

Lemma make_Ok n : 0 <= n -> make zero n = Ok (repeat zero (Z.to_nat n)).
Proof. unfold make. intros H. destruct (Z.ltb_spec n 0); [lia | reflexivity]. Qed.

Lemma make_inv n buf : make zero n = Ok buf -> 0 <= n /\ lenl buf = n.
Proof.
  unfold make. destruct (Z.ltb_spec n 0) as [Hn|Hn]; intros Hb; inversion Hb.
  split; [lia | now apply lenl_repeat].
Qed.

Lemma window_from_Ok dst k :
  0 <= k <= lenl dst -> window_from dst k = Ok (drop k dst).
Proof.
  unfold window_from. intros H.
  destruct (Z.leb_spec 0 k); [|lia]. destruct (Z.leb_spec k (lenl dst)); [|lia].
  reflexivity.
Qed.

Lemma window_from_inv dst k w :
  window_from dst k = Ok w -> 0 <= k <= lenl dst /\ w = drop k dst.
Proof.
  unfold window_from.
  destruct (Z.leb_spec 0 k); destruct (Z.leb_spec k (lenl dst)); simpl;
    intros Hw; inversion Hw; subst; split; auto; lia.
Qed.

Lemma window_to_Ok dst k :
  0 <= k <= lenl dst -> window_to dst k = Ok (take k dst).
Proof.
  unfold window_to. intros H.
  destruct (Z.leb_spec 0 k); [|lia]. destruct (Z.leb_spec k (lenl dst)); [|lia].
  reflexivity.
Qed.

Lemma window_to_inv dst k w :
  window_to dst k = Ok w -> 0 <= k <= lenl dst /\ w = take k dst.
Proof.
  unfold window_to.
  destruct (Z.leb_spec 0 k); destruct (Z.leb_spec k (lenl dst)); simpl;
    intros Hw; inversion Hw; subst; split; auto; lia.
Qed.

(** Within the length, [s[:k]] does not see the spare capacity. *)
Lemma slice_to_Ok e sp k :
  0 <= k <= lenl e ->
  slice_to e sp k = Ok (mk_slice (take k e) (drop k e ++ sp)).
Proof.
  unfold slice_to. intros H. pose proof (lenl_nonneg sp).
  destruct (Z.leb_spec 0 k); [|lia].
  destruct (Z.leb_spec k (lenl e + lenl sp)); [|lia]. simpl.
  rewrite take_app_le, drop_app_le by lia. reflexivity.
Qed.

Lemma slice_from_Ok e sp k :
  0 <= k <= lenl e -> slice_from e sp k = Ok (mk_slice (drop k e) sp).
Proof.
  unfold slice_from. intros H.
  destruct (Z.leb_spec 0 k); [|lia]. destruct (Z.leb_spec k (lenl e)); [|lia].
  reflexivity.
Qed.

Lemma slice_range_Ok e sp a b :
  0 <= a <= b -> b <= lenl e ->
  exists sp', slice_range e sp a b = Ok (mk_slice (take (b - a) (drop a e)) sp').
Proof.
  unfold slice_range. intros H Hb. pose proof (lenl_nonneg sp).
  destruct (Z.leb_spec 0 a); [|lia]. destruct (Z.leb_spec a b); [|lia].
  destruct (Z.leb_spec b (lenl e + lenl sp)); [|lia]. simpl.
  eexists. rewrite drop_app_le by lia.
  rewrite take_app_le by (rewrite lenl_drop; lia). reflexivity.
Qed.

(** ** Well-formed ropes *)

Lemma wf_lenf r : wf r -> lenf r = lenl (contents r).
Proof.
  induction r as [|v n l IHl rt IHrt st]; simpl; [tauto|].
  destruct v as [|e sp].
  - intros (Hl & Hr & Hn). rewrite lenl_app. rewrite <- IHl, <- IHrt; auto.
  - intros (Hn & _). exact Hn.
Qed.

Lemma wf_lenf_nonneg r : wf r -> 0 <= lenf r.
Proof. intros H. rewrite (wf_lenf _ H). apply lenl_nonneg. Qed.

Lemma wf_length_of r : wf r -> length_of r = Ok (lenf r).
Proof. destruct r; simpl; [tauto | reflexivity]. Qed.

Lemma length_of_lenf r n : length_of r = Ok n -> n = lenf r.
Proof. destruct r; simpl; intros H; inversion H; reflexivity. Qed.

(** ** [Copy] and [Value] *)

(** [Copy] never changes the length of its destination. *)
Lemma Copy_length r : forall dst d, Copy r dst = Ok d -> lenl d = lenl dst.
Proof.
  induction r as [|v n l IHl rt IHrt st]; simpl; intros dst d H;
    [discriminate|].
  destruct v as [|e sp].
  - bind_inv H. bind_inv H. bind_inv H. bind_inv H. inversion H; subst.
    apply IHl in Ha. apply window_from_inv in Ha1 as (Hk & ->).
    apply IHrt in Ha2. rewrite lenl_app, Ha2, lenl_take, lenl_drop; lia.
  - inversion H. apply lenl_copy.
Qed.

(** On a well-formed rope [Copy] writes the contents in front of the
    destination's remainder. *)
Lemma Copy_wf r :
  wf r -> forall dst, lenf r <= lenl dst ->
  Copy r dst = Ok (contents r ++ drop (lenf r) dst).
Proof.
  induction r as [|v n l IHl rt IHrt st]; simpl; [tauto|].
  destruct v as [|e sp].
  - intros (Hl & Hr & Hn) dst Hd.
    pose proof (wf_lenf_nonneg _ Hl). pose proof (wf_lenf_nonneg _ Hr).
    pose proof (wf_lenf _ Hl) as Hcl. pose proof (wf_lenf _ Hr) as Hcr.
    rewrite (IHl Hl dst) by lia. simpl.
    rewrite (wf_length_of _ Hl). simpl.
    rewrite window_from_Ok
      by (rewrite lenl_app, lenl_drop; lia).
    simpl. rewrite Hcl at 1. rewrite drop_lenl_app.
    rewrite (IHrt Hr) by (rewrite lenl_drop; lia). simpl.
    rewrite Hcl at 1. rewrite take_lenl_app.
    rewrite drop_drop by lia. rewrite <- app_assoc. subst n. reflexivity.
  - intros (Hn & _) dst Hd. subst n. now rewrite copy_fits.
Qed.

Lemma Value_wf r : wf r -> Value zero r = Ok (contents r).
Proof.
  intros H. unfold Value. rewrite (wf_length_of _ H). simpl.
  pose proof (wf_lenf_nonneg _ H) as Hn.
  rewrite make_Ok by assumption. simpl.
  rewrite (Copy_wf _ H) by (rewrite lenl_repeat; lia).
  rewrite drop_all by (rewrite lenl_repeat; lia).
  now rewrite app_nil_r.
Qed.

(** ** [NewRope] *)

Lemma half_bounds n : 0 <= n -> 0 <= Z.quot n 2 <= n.
Proof. intros H. rewrite Z.quot_div_nonneg by lia. split; [apply Z.div_pos | apply Z.div_le_upper_bound]; lia. Qed.

Lemma half_shorter n :
  2 <= n -> Z.quot n 2 < n /\ n - Z.quot n 2 < n.
Proof.
  intros H. rewrite Z.quot_div_nonneg by lia.
  assert (1 <= n / 2) by (apply Z.div_le_lower_bound; lia).
  assert (n / 2 < n) by (apply Z.div_lt_upper_bound; lia).
  lia.
Qed.

(** A buffer within the split threshold becomes one Leaf. *)
Lemma NewRope_leaf fuel e sp st :
  lenl e <= SplitLength st ->
  NewRope zero (S fuel) (mk_slice e sp) st
  = Ok (mk (mk_slice e sp) (lenl e) (null _ _) (null _ _) st).
Proof.
  intros H. simpl. unfold len. simpl.
  rewrite Z.gtb_ltb. destruct (Z.ltb_spec (SplitLength st) (lenl e)); [lia|].
  reflexivity.
Qed.

(** A longer buffer is cut at [length / 2] and both halves are built. *)
Lemma NewRope_split fuel e sp st :
  SplitLength st < lenl e ->
  NewRope zero (S fuel) (mk_slice e sp) st
  = (l <- NewRope zero fuel
            (mk_slice (take (Z.quot (lenl e) 2) e)
                      (drop (Z.quot (lenl e) 2) e ++ sp)) st ;;
     rt <- NewRope zero fuel (mk_slice (drop (Z.quot (lenl e) 2) e) sp) st ;;
     Ok (mk (nil_slice T) (lenl e) l rt st)).
Proof.
  intros H. simpl. unfold len. simpl.
  rewrite Z.gtb_ltb. destruct (Z.ltb_spec (SplitLength st) (lenl e)); [|lia].
  pose proof (half_bounds (lenl_nonneg e)) as Hh.
  rewrite slice_to_Ok by exact Hh. simpl.
  rewrite slice_from_Ok by exact Hh. reflexivity.
Qed.

(** Whatever [NewRope] returns for a non-nil buffer is a well-formed rope
    over the settings that holds the buffer's elements. *)
Lemma NewRope_sound st : forall fuel e sp r,
  NewRope zero fuel (mk_slice e sp) st = Ok r ->
  wf r /\ uses st r /\ contents r = e /\ lenf r = lenl e.
Proof.
  induction fuel as [|fuel IH]; intros e sp r H; [discriminate|].
  destruct (Z.ltb_spec (SplitLength st) (lenl e)) as [Hs|Hs].
  - rewrite NewRope_split in H by assumption.
    bind_inv H. bind_inv H. inversion H; subst r; clear H.
    apply IH in Ha as (Hwl & Hul & Hcl & Hll).
    apply IH in Ha0 as (Hwr & Hur & Hcr & Hlr).
    pose proof (half_bounds (lenl_nonneg e)) as Hh.
    simpl. rewrite Hcl, Hcr, Hll, Hlr, take_drop.
    rewrite lenl_take, lenl_drop by lia.
    repeat split; auto. lia.
  - rewrite NewRope_leaf in H by assumption.
    inversion H; subst r; simpl. repeat split; auto.
Qed.

(** With a split threshold of at least one, a recursion depth of the
    buffer's length plus one is enough. *)
Lemma NewRope_returns st :
  1 <= SplitLength st ->
  forall fuel e sp, lenl e <= Z.of_nat fuel ->
  exists r, NewRope zero (S fuel) (mk_slice e sp) st = Ok r.
Proof.
  intros Hst. induction fuel as [|fuel IH]; intros e sp Hf.
  - rewrite NewRope_leaf by lia. eauto.
  - destruct (Z.ltb_spec (SplitLength st) (lenl e)) as [Hs|Hs].
    + rewrite NewRope_split by assumption.
      pose proof (half_bounds (lenl_nonneg e)) as Hh.
      destruct (@half_shorter (lenl e)) as (H1 & H2); [lia|].
      destruct (IH (take (Z.quot (lenl e) 2) e)
                   (drop (Z.quot (lenl e) 2) e ++ sp)) as (l & Hl).
      { rewrite lenl_take by lia. lia. }
      destruct (IH (drop (Z.quot (lenl e) 2) e) sp) as (rt & Hr).
      { rewrite lenl_drop by lia. lia. }
      rewrite Hl, Hr. simpl. eauto.
    + rewrite NewRope_leaf by lia. eauto.
Qed.

(** More depth does not change a result. *)
Lemma NewRope_more_fuel st : forall fuel v r,
  NewRope zero fuel v st = Ok r -> NewRope zero (S fuel) v st = Ok r.
Proof.
  induction fuel as [|fuel IH]; intros v r H; [discriminate|].
  destruct v as [|e sp].
  - exact H.
  - destruct (Z.ltb_spec (SplitLength st) (lenl e)) as [Hs|Hs].
    + rewrite NewRope_split in H |- * by assumption.
      bind_inv H. bind_inv H.
      rewrite (IH _ _ Ha), (IH _ _ Ha0). exact H.
    + rewrite NewRope_leaf in H |- * by assumption. exact H.
Qed.

(** ** [Insert] *)

(** On a Leaf, within the contract, [Insert] builds the rope of the
    spliced buffer. *)
Lemma Insert_leaf fuel e sp l rt st index insertion :
  0 <= index <= lenl e ->
  lenl e + len insertion <= max_int ->
  Insert zero fuel (mk (mk_slice e sp) (lenl e) l rt st) index insertion
  = NewRope zero fuel
      (fresh (take index e ++ elems_of insertion ++ drop index e)) st.
Proof.
  intros Hi Hfit. unfold len in *.
  set (x := elems_of insertion) in *.
  pose proof (lenl_nonneg x) as Hx. pose proof max_int_pos as Hmax.
  cbn [Insert]. unfold len. fold x.
  rewrite !add_id by (rewrite min_int_neg; lia).
  rewrite make_Ok by lia. cbn [bind].
  set (zs := repeat zero (Z.to_nat (lenl e + lenl x))).
  assert (Hzs : lenl zs = lenl e + lenl x) by (apply lenl_repeat; lia).
  rewrite slice_to_Ok by lia. cbn [bind elems_of].
  assert (Ht : lenl (take index e) = index) by (apply lenl_take; lia).
  assert (H1 : copy zs (take index e) = take index e ++ drop index zs).
  { rewrite copy_fits by lia. now rewrite Ht. }
  rewrite H1.
  assert (H2 : drop index (take index e ++ drop index zs) = drop index zs).
  { rewrite <- Ht at 1. apply drop_lenl_app. }
  assert (H3 : take index (take index e ++ drop index zs) = take index e).
  { rewrite <- Ht at 1. apply take_lenl_app. }
  assert (Hd : lenl (drop index zs) = lenl e + lenl x - index)
    by (rewrite lenl_drop; lia).
  rewrite window_from_Ok by (rewrite lenl_app; lia).
  cbn [bind]. rewrite H2, H3.
  rewrite (copy_fits (drop index zs) x) by lia.
  set (rest := drop (lenl x) (drop index zs)).
  assert (Hrest : lenl rest = lenl e - index)
    by (unfold rest; rewrite lenl_drop; lia).
  assert (H4 : drop (index + lenl x) (take index e ++ x ++ rest) = rest).
  { rewrite app_assoc.
    replace (index + lenl x) with (lenl (take index e ++ x))
      by (rewrite lenl_app; lia).
    apply drop_lenl_app. }
  assert (H5 : take (index + lenl x) (take index e ++ x ++ rest)
               = take index e ++ x).
  { rewrite app_assoc.
    replace (index + lenl x) with (lenl (take index e ++ x))
      by (rewrite lenl_app; lia).
    apply take_lenl_app. }
  rewrite window_from_Ok by (rewrite !lenl_app; lia).
  cbn [bind]. rewrite slice_from_Ok by lia. cbn [bind elems_of].
  rewrite H4, H5.
  rewrite copy_exact by (rewrite lenl_drop; lia).
  now rewrite <- app_assoc.
Qed.

(** Within the contract, whatever [Insert] returns is a well-formed rope
    holding the spliced sequence. *)
Lemma Insert_sound fuel st insertion : forall r,
  wf r -> uses st r ->
  forall index r',
  0 <= index <= lenf r ->
  lenf r + len insertion <= max_int ->
  Insert zero fuel r index insertion = Ok r' ->
  wf r' /\ uses st r' /\
  contents r' = take index (contents r) ++ elems_of insertion
                ++ drop index (contents r) /\
  lenf r' = lenf r + len insertion.
Proof.
  pose proof (lenl_nonneg (elems_of insertion)) as Hx. fold (len insertion) in Hx.
  pose proof max_int_pos as Hmax.
  induction r as [|v n l IHl rt IHrt st']; [simpl; tauto|].
  destruct v as [|e sp].
  - intros (Hwl & Hwr & Hn) (-> & Hul & Hur) index r' Hi Hfit H.
    pose proof (wf_lenf_nonneg _ Hwl). pose proof (wf_lenf_nonneg _ Hwr).
    pose proof (wf_lenf _ Hwl) as Hcl. pose proof (wf_lenf _ Hwr) as Hcr.
    cbn [lenf] in *. cbn [Insert] in H.
    rewrite (wf_length_of _ Hwl) in H. cbn [bind] in H.
    rewrite add_id in H by (rewrite min_int_neg; lia).
    destruct (Z.ltb_spec index (lenf l)) as [Hlt|Hge].
    + bind_inv H. inversion H; subst r'; clear H.
      apply IHl in Ha as (Hw' & Hu' & Hc' & Hl'); auto; try lia.
      cbn [wf uses contents lenf]. rewrite Hc'.
      rewrite take_app_le, drop_app_le by lia.
      rewrite <- !app_assoc. repeat split; auto. lia.
    + rewrite sub_id in H by (rewrite min_int_neg; lia).
      bind_inv H. inversion H; subst r'; clear H.
      apply IHrt in Ha as (Hw' & Hu' & Hc' & Hl'); auto; try lia.
      cbn [wf uses contents lenf]. rewrite Hc'.
      rewrite take_app_ge, drop_app_ge by lia. rewrite <- Hcl.
      rewrite <- !app_assoc. repeat split; auto. lia.
  - intros (Hn & -> & ->) (-> & _) index r' Hi Hfit H. subst n.
    cbn [lenf contents] in *.
    rewrite Insert_leaf in H by assumption.
    apply NewRope_sound in H as (Hw & Hu & Hc & Hl).
    rewrite Hl, Hc, !lenl_app, lenl_take, lenl_drop by lia.
    repeat split; auto. unfold len. lia.
Qed.

(** With a split threshold of at least one, [Insert] within its contract
    returns once the depth exceeds the new length. *)
Lemma Insert_returns fuel st insertion :
  1 <= SplitLength st ->
  forall r, wf r -> uses st r ->
  forall index,
  0 <= index <= lenf r ->
  lenf r + len insertion <= max_int ->
  lenf r + len insertion <= Z.of_nat fuel ->
  exists r', Insert zero (S fuel) r index insertion = Ok r'.
Proof.
  intros Hst.
  pose proof (lenl_nonneg (elems_of insertion)) as Hx. fold (len insertion) in Hx.
  pose proof max_int_pos as Hmax.
  induction r as [|v n l IHl rt IHrt st']; [simpl; tauto|].
  destruct v as [|e sp].
  - intros (Hwl & Hwr & Hn) (-> & Hul & Hur) index Hi Hfit Hfuel.
    pose proof (wf_lenf_nonneg _ Hwl). pose proof (wf_lenf_nonneg _ Hwr).
    cbn [lenf] in *. cbn [Insert].
    rewrite (wf_length_of _ Hwl). cbn [bind].
    destruct (Z.ltb_spec index (lenf l)) as [Hlt|Hge].
    + destruct (IHl Hwl Hul index) as (cl & Hcl); try lia.
      rewrite Hcl. cbn [bind]. eauto.
    + rewrite sub_id by (rewrite min_int_neg; lia).
      destruct (IHrt Hwr Hur (index - lenf l)) as (cr & Hcr); try lia.
      rewrite Hcr. cbn [bind]. eauto.
  - intros (Hn & -> & ->) (-> & _) index Hi Hfit Hfuel. subst n.
    cbn [lenf] in *.
    rewrite Insert_leaf by assumption.
    apply NewRope_returns; [assumption|].
    rewrite !lenl_app, lenl_take, lenl_drop by lia. unfold len in *. lia.
Qed.

Lemma add_overflow a b :
  0 <= a <= max_int -> 0 <= b <= max_int -> max_int < a + b -> add a b < 0.
Proof.
  unfold add, wrap, max_int. intros Ha Hb H.
  replace (a + b + 2 ^ 63) with ((a + b - 2 ^ 63) + 1 * 2 ^ 64) by lia.
  rewrite Z.mod_add by lia. rewrite Z.mod_small by lia. lia.
Qed.

(** When the new length is no [int] the sum wraps to a negative number
    and [make] panics. *)
Lemma Insert_leaf_overflow fuel e sp l rt st index insertion :
  lenl e <= max_int -> len insertion <= max_int ->
  max_int < lenl e + len insertion ->
  Insert zero fuel (mk (mk_slice e sp) (lenl e) l rt st) index insertion
  = Panic.
Proof.
  intros He Hx H. cbn [Insert].
  pose proof (lenl_nonneg e). pose proof (lenl_nonneg (elems_of insertion)).
  unfold len in *. unfold make.
  destruct (Z.ltb_spec (add (lenl e) (lenl (elems_of insertion))) 0) as [Hn|Hn];
    [reflexivity|].
  pose proof (@add_overflow (lenl e) (lenl (elems_of insertion))). lia.
Qed.

(** ** [bound] *)

Lemma bound_left start end_ ll :
  0 <= start <= end_ -> 0 <= ll ->
  bound start end_ ll = (Z.min start ll, Z.min end_ ll).
Proof.
  intros H Hl. unfold bound. rewrite !Z.gtb_ltb.
  destruct (Z.ltb_spec start 0); [lia|]. destruct (Z.ltb_spec end_ 0); [lia|].
  destruct (Z.ltb_spec ll start); destruct (Z.ltb_spec ll end_);
    f_equal; lia.
Qed.

Lemma bound_right start end_ ll rl :
  0 <= start <= end_ -> end_ <= ll + rl -> 0 <= ll -> 0 <= rl ->
  bound (start - ll) (end_ - ll) rl
  = (Z.max 0 (start - ll), Z.max 0 (end_ - ll)).
Proof.
  intros H He Hl Hr. unfold bound. rewrite !Z.gtb_ltb.
  destruct (Z.ltb_spec (start - ll) 0); destruct (Z.ltb_spec (end_ - ll) 0);
    destruct (Z.ltb_spec rl (start - ll));
    destruct (Z.ltb_spec rl (end_ - ll)); f_equal; lia.
Qed.

(** Cutting [[start, end_)] out of a concatenation is cutting the clamped
    ranges out of both parts. *)
Lemma cut_app (c1 c2 : list T) start end_ :
  0 <= start <= end_ ->
  (take (Z.min start (lenl c1)) c1 ++ drop (Z.min end_ (lenl c1)) c1)
  ++ (take (Z.max 0 (start - lenl c1)) c2
      ++ drop (Z.max 0 (end_ - lenl c1)) c2)
  = take start (c1 ++ c2) ++ drop end_ (c1 ++ c2).
Proof.
  intros H. pose proof (lenl_nonneg c1) as H1.
  destruct (Z.le_gt_cases start (lenl c1)) as [Hs|Hs];
    destruct (Z.le_gt_cases end_ (lenl c1)) as [He|He]; try lia.
  - rewrite !Z.min_l, !Z.max_l by lia.
    rewrite take_app_le, drop_app_le by lia.
    rewrite (take_0 c2) by lia. rewrite (drop_0 c2) by lia.
    now rewrite <- app_assoc.
  - rewrite Z.min_l, Z.min_r, Z.max_l, Z.max_r by lia.
    rewrite take_app_le, drop_app_ge by lia.
    rewrite (take_0 c2) by lia. rewrite (drop_all c1) by lia.
    now rewrite app_nil_r.
  - rewrite !Z.min_r, !Z.max_r by lia.
    rewrite take_app_ge, drop_app_ge by lia.
    rewrite (take_all c1) by lia. rewrite (drop_all c1) by lia.
    rewrite app_nil_r. now rewrite <- app_assoc.
Qed.

(** ** [adjust] on an Internal node *)

(** Whatever the join makes of two well-formed children, the node that
    [adjust] returns is well-formed and has the length it was given.  It
    has the children's contents when no join fires, and when the join
    threshold is at most one. *)
Lemma adjust_internal_sound fuel st l rt r' :
  wf l -> wf rt -> uses st l -> uses st rt ->
  adjust zero fuel (mk (nil_slice T) (lenf l + lenf rt) l rt st) = Ok r' ->
  wf r' /\ uses st r' /\ lenf r' = lenf l + lenf rt /\
  (JoinLength st <= 1 -> contents r' = contents l ++ contents rt).
Proof.
  intros Hwl Hwr Hul Hur H.
  pose proof (wf_lenf_nonneg _ Hwl). pose proof (wf_lenf_nonneg _ Hwr).
  unfold adjust, adjust_with in H.
  destruct (Z.ltb_spec (lenf l + lenf rt) (JoinLength st)) as [Hj|Hj].
  - bind_inv H. bind_inv H. bind_inv H. bind_inv H. bind_inv H.
    inversion H; subst r'; clear H.
    apply make_inv in Ha as (_ & Hbuf).
    apply Copy_length in Ha0.
    apply length_of_lenf in Ha1; subst a1.
    apply window_to_inv in Ha2 as (Hk & ->).
    apply Copy_length in Ha3.
    assert (Hlen : lenl (a3 ++ drop (lenf l) a0) = lenf l + lenf rt).
    { rewrite lenl_app, Ha3, lenl_take, lenl_drop by lia. lia. }
    cbn [wf uses lenf contents fresh]. repeat split; auto.
    intros Hj1.
    assert (Hz : lenl (contents l ++ contents rt) = 0).
    { rewrite lenl_app, <- (wf_lenf _ Hwl), <- (wf_lenf _ Hwr). lia. }
    assert (Hz' : lenl (a3 ++ drop (lenf l) a0) = 0) by lia.
    unfold lenl in Hz, Hz'.
    destruct (contents l ++ contents rt); [|discriminate].
    destruct (a3 ++ drop (lenf l) a0); [reflexivity|discriminate].
  - inversion H; subst r'; clear H.
    cbn [wf uses lenf contents]. repeat split; auto.
Qed.

(** ** [Remove] *)

(** On a Leaf, within the contract, [Remove] builds the rope of the
    buffer without the range. *)
Lemma Remove_leaf fuel e sp l rt st start end_ :
  0 <= start < end_ -> end_ <= lenl e -> lenl e <= max_int ->
  Remove zero fuel (mk (mk_slice e sp) (lenl e) l rt st) start end_
  = NewRope zero fuel (fresh (take start e ++ drop end_ e)) st.
Proof.
  intros Hs He Hfit. pose proof max_int_pos as Hmax.
  cbn [Remove]. destruct (Z.eqb_spec start end_); [lia|].
  rewrite (@sub_id end_ start) by (rewrite min_int_neg; lia).
  rewrite sub_id by (rewrite min_int_neg; lia).
  rewrite make_Ok by lia. cbn [bind].
  set (zs := repeat zero (Z.to_nat (lenl e - (end_ - start)))).
  assert (Hzs : lenl zs = lenl e - (end_ - start)) by (apply lenl_repeat; lia).
  rewrite slice_to_Ok by lia. cbn [bind elems_of].
  assert (Ht : lenl (take start e) = start) by (apply lenl_take; lia).
  assert (H1 : copy zs (take start e) = take start e ++ drop start zs).
  { rewrite copy_fits by lia. now rewrite Ht. }
  rewrite H1.
  assert (H2 : drop start (take start e ++ drop start zs) = drop start zs).
  { rewrite <- Ht at 1. apply drop_lenl_app. }
  assert (H3 : take start (take start e ++ drop start zs) = take start e).
  { rewrite <- Ht at 1. apply take_lenl_app. }
  rewrite window_from_Ok by (rewrite lenl_app, lenl_drop; lia).
  cbn [bind]. rewrite slice_from_Ok by lia. cbn [bind elems_of].
  rewrite H2, H3.
  rewrite copy_exact by (rewrite !lenl_drop; lia).
  reflexivity.
Qed.

(** Within the contract, whatever [Remove] returns is a well-formed rope
    of the expected length; it holds the expected sequence when the join
    threshold is at most one. *)
Lemma Remove_sound fuel st : forall r,
  wf r -> uses st r -> lenf r <= max_int ->
  forall start end_ r',
  0 <= start <= end_ -> end_ <= lenf r ->
  Remove zero fuel r start end_ = Ok r' ->
  wf r' /\ uses st r' /\ lenf r' = lenf r - (end_ - start) /\
  (JoinLength st <= 1 ->
   contents r' = take start (contents r) ++ drop end_ (contents r)).
Proof.
  pose proof max_int_pos as Hmax.
  induction r as [|v n l IHl rt IHrt st']; [simpl; tauto|].
  intros Hw Hu Hfit start end_ r' Hs He H.
  destruct (Z.eq_dec start end_) as [->|Hne].
  { assert (r' = mk v n l rt st') as ->.
    { destruct v; cbn [Remove] in H; rewrite Z.eqb_refl in H;
        now inversion H. }
    split; [exact Hw|]. split; [exact Hu|]. split; [lia|].
    intros _. now rewrite take_drop. }
  destruct v as [|e sp].
  - destruct Hw as (Hwl & Hwr & Hn). destruct Hu as (-> & Hul & Hur).
    pose proof (wf_lenf_nonneg _ Hwl). pose proof (wf_lenf_nonneg _ Hwr).
    pose proof (wf_lenf _ Hwl) as Hcl. pose proof (wf_lenf _ Hwr) as Hcr.
    cbn [lenf] in *. cbn [Remove] in H.
    destruct (Z.eqb_spec start end_); [lia|].
    rewrite (wf_length_of _ Hwl) in H. cbn [bind] in H.
    rewrite bound_left in H by lia.
    bind_inv H. rename a into cl.
    rewrite (wf_length_of _ Hwr) in H. cbn [bind] in H.
    rewrite !sub_id in H by (rewrite min_int_neg; lia).
    rewrite (@bound_right _ _ _ (lenf rt)) in H by lia.
    bind_inv H. rename a into cr.
    apply IHl in Ha as (Hwcl & Hucl & Hlcl & Hccl); auto; try lia.
    apply IHrt in Ha0 as (Hwcr & Hucr & Hlcr & Hccr); auto; try lia.
    rewrite (wf_length_of _ Hwcl), (wf_length_of _ Hwcr) in H.
    cbn [bind] in H.
    rewrite add_id in H by (rewrite min_int_neg; lia).
    apply adjust_internal_sound in H as (Hw' & Hu' & Hl' & Hc'); auto.
    repeat split; auto; [lia|].
    intros Hj. cbn [contents]. rewrite (Hc' Hj), (Hccl Hj), (Hccr Hj).
    rewrite Hcl. apply cut_app. lia.
  - destruct Hw as (Hn & -> & ->). destruct Hu as (-> & _). subst n.
    cbn [lenf contents] in *.
    rewrite Remove_leaf in H by lia.
    apply NewRope_sound in H as (Hw & Hu & Hc & Hl).
    rewrite Hl, Hc, lenl_app, lenl_take, lenl_drop by lia.
    repeat split; auto. lia.
Qed.

(** ** [CopySlice] and [Slice] *)

(** The range [[a, b)] of a concatenation is made of the clamped ranges
    of both parts. *)
Lemma range_app (c1 c2 : list T) a b :
  0 <= a <= b -> b <= lenl c1 + lenl c2 ->
  take (Z.min b (lenl c1) - Z.min a (lenl c1)) (drop (Z.min a (lenl c1)) c1)
  ++ take (Z.max 0 (b - lenl c1) - Z.max 0 (a - lenl c1))
          (drop (Z.max 0 (a - lenl c1)) c2)
  = take (b - a) (drop a (c1 ++ c2)).
Proof.
  intros H Hb. pose proof (lenl_nonneg c1) as H1.
  destruct (Z.le_gt_cases a (lenl c1)) as [Ha|Ha];
    destruct (Z.le_gt_cases b (lenl c1)) as [Hb1|Hb1]; try lia.
  - rewrite !Z.min_l, !Z.max_l by lia.
    rewrite drop_app_le by lia.
    rewrite take_app_le by (rewrite lenl_drop; lia).
    rewrite (take_0 (drop 0 c2)) by lia. now rewrite app_nil_r.
  - rewrite (Z.min_l a), (Z.min_r b), (Z.max_l 0 (a - lenl c1)),
      (Z.max_r 0 (b - lenl c1)) by lia.
    rewrite drop_app_le by lia.
    rewrite take_app_ge by (rewrite lenl_drop; lia).
    rewrite lenl_drop by lia.
    rewrite (take_all (drop a c1)) by (rewrite lenl_drop; lia).
    rewrite (drop_0 c2) by lia.
    f_equal. f_equal. lia.
  - rewrite !Z.min_r, !Z.max_r by lia.
    rewrite drop_app_ge by lia.
    rewrite (take_0 (drop (lenl c1) c1)) by lia.
    cbn [app]. f_equal. lia.
Qed.

(** On a well-formed rope [CopySlice] writes the range in front of the
    destination's remainder. *)
Lemma CopySlice_wf : forall r,
  wf r -> lenf r <= max_int ->
  forall dst a b,
  0 <= a <= b -> b <= lenf r -> b - a <= lenl dst ->
  CopySlice r dst a b
  = Ok (take (b - a) (drop a (contents r)) ++ drop (b - a) dst).
Proof.
  pose proof max_int_pos as Hmax.
  induction r as [|v n l IHl rt IHrt st']; [simpl; tauto|].
  intros Hw Hfit dst a b Ha Hb Hd.
  destruct (Z.eq_dec a b) as [->|Hne].
  { replace (CopySlice (mk v n l rt st') dst b b) with (Ok dst)
      by (destruct v; cbn [CopySlice]; now rewrite Z.eqb_refl).
    rewrite Z.sub_diag. rewrite take_0 by lia. now rewrite drop_0 by lia. }
  destruct v as [|e sp].
  - destruct Hw as (Hwl & Hwr & Hn).
    pose proof (wf_lenf_nonneg _ Hwl). pose proof (wf_lenf_nonneg _ Hwr).
    pose proof (wf_lenf _ Hwl) as Hcl. pose proof (wf_lenf _ Hwr) as Hcr.
    cbn [lenf] in *. cbn [CopySlice contents].
    destruct (Z.eqb_spec a b); [lia|].
    rewrite (wf_length_of _ Hwl). cbn [bind].
    rewrite bound_left by lia.
    rewrite (IHl Hwl) by lia. cbn [bind].
    rewrite (wf_length_of _ Hwr). cbn [bind].
    rewrite !sub_id by (rewrite min_int_neg; lia).
    rewrite (@bound_right _ _ _ (lenf rt)) by lia.
    set (ls := Z.min a (lenf l)). set (le := Z.min b (lenf l)).
    set (rs := Z.max 0 (a - lenf l)). set (re := Z.max 0 (b - lenf l)).
    set (segl := take (le - ls) (drop ls (contents l))).
    assert (Hsegl : lenl segl = le - ls).
    { unfold segl. rewrite lenl_take; [reflexivity|].
      rewrite lenl_drop by lia. lia. }
    rewrite window_from_Ok by (rewrite lenl_app, lenl_drop; lia).
    cbn [bind].
    assert (E1 : drop (le - ls) (segl ++ drop (le - ls) dst)
                 = drop (le - ls) dst).
    { rewrite <- Hsegl at 1. apply drop_lenl_app. }
    assert (E2 : take (le - ls) (segl ++ drop (le - ls) dst) = segl).
    { rewrite <- Hsegl at 1. apply take_lenl_app. }
    rewrite E1, E2.
    rewrite (IHrt Hwr) by (try rewrite lenl_drop; lia). cbn [bind].
    rewrite drop_drop by lia.
    replace (le - ls + (re - rs)) with (b - a) by lia.
    rewrite app_assoc. f_equal. f_equal.
    unfold segl, ls, le, rs, re. rewrite Hcl. apply range_app; lia.
  - destruct Hw as (Hn & _). subst n. cbn [lenf contents] in *.
    cbn [CopySlice]. destruct (Z.eqb_spec a b); [lia|].
    destruct (@slice_range_Ok e sp a b) as (sp' & ->); [lia | lia |].
    cbn [bind elems_of].
    rewrite copy_fits by (rewrite lenl_take; rewrite ?lenl_drop; lia).
    rewrite lenl_take by (rewrite lenl_drop; lia). reflexivity.
Qed.

Lemma Slice_wf r a b :
  wf r -> lenf r <= max_int -> 0 <= a <= b -> b <= lenf r ->
  Slice zero r a b = Ok (take (b - a) (drop a (contents r))).
Proof.
  intros Hw Hfit Ha Hb. pose proof max_int_pos as Hmax. unfold Slice.
  rewrite sub_id by (rewrite min_int_neg; lia).
  rewrite make_Ok by lia. cbn [bind].
  rewrite (CopySlice_wf _ Hw Hfit) by (try rewrite lenl_repeat; lia).
  rewrite (drop_all (repeat zero (Z.to_nat (b - a))))
    by (rewrite lenl_repeat; lia).
  now rewrite app_nil_r.
Qed.

(** ** [Rebalance] *)

Section Rebalancing.

Variable ratio_gt : Z -> Z -> float32 -> bool.

(** Whatever [Rebalance] leaves in a well-formed node is a well-formed
    node with the same contents and the same length. *)
Lemma Rebalance_sound fuel : forall r r',
  wf r ->
  Rebalance ratio_gt zero fuel r = Ok r' ->
  wf r' /\ contents r' = contents r /\ lenf r' = lenf r.
Proof.
  induction r as [|v n l IHl rt IHrt st]; [simpl; tauto|].
  intros r' Hw H. destruct v as [|e sp].
  - cbn [Rebalance] in H. pose proof Hw as (Hwl & Hwr & Hn).
    rewrite (wf_length_of _ Hwl), (wf_length_of _ Hwr) in H.
    cbn [bind] in H.
    destruct (ratio_gt (lenf l) (lenf rt) (Rebalance_ratio st)
              || ratio_gt (lenf rt) (lenf l) (Rebalance_ratio st)).
    + rewrite (Value_wf _ Hw) in H. cbn [bind] in H.
      apply NewRope_sound in H as (Hw' & _ & Hc & Hl).
      repeat split; auto. rewrite Hl. symmetry. now apply wf_lenf.
    + bind_inv H. bind_inv H. inversion H; subst r'; clear H.
      apply IHl in Ha as (Hw1 & Hc1 & Hl1); auto.
      apply IHrt in Ha0 as (Hw2 & Hc2 & Hl2); auto.
      cbn [wf contents lenf]. rewrite Hc1, Hc2, Hl1, Hl2.
      repeat split; auto.
  - cbn [Rebalance] in H. inversion H; subst r'. auto.
Qed.

(** With a split threshold of at least one, [Rebalance] returns once the
    depth exceeds the rope's length. *)
Lemma Rebalance_returns fuel st :
  1 <= SplitLength st ->
  forall r, wf r -> uses st r -> lenf r <= Z.of_nat fuel ->
  exists r', Rebalance ratio_gt zero (S fuel) r = Ok r'.
Proof.
  intros Hst. induction r as [|v n l IHl rt IHrt st']; [simpl; tauto|].
  intros Hw Hu Hf. destruct v as [|e sp].
  - cbn [Rebalance]. pose proof Hw as (Hwl & Hwr & Hn).
    destruct Hu as (-> & Hul & Hur).
    pose proof (wf_lenf_nonneg _ Hwl). pose proof (wf_lenf_nonneg _ Hwr).
    cbn [lenf] in Hf.
    rewrite (wf_length_of _ Hwl), (wf_length_of _ Hwr). cbn [bind].
    destruct (ratio_gt (lenf l) (lenf rt) (Rebalance_ratio st)
              || ratio_gt (lenf rt) (lenf l) (Rebalance_ratio st)).
    + rewrite (Value_wf _ Hw). cbn [bind].
      apply NewRope_returns; [assumption|].
      rewrite <- (wf_lenf _ Hw). exact Hf.
    + destruct (IHl Hwl Hul) as (l' & ->); [lia|].
      destruct (IHrt Hwr Hur) as (rt' & ->); [lia|].
      cbn [bind]. eauto.
  - cbn [Rebalance]. eauto.
Qed.

(** C4: for every well-formed rope [r], whatever state [Rebalance] leaves
    in [r], its [Value()] is the one before the call; and [Rebalance]
    returns, once the depth exceeds the rope's length, when the rope's
    settings have [SplitLength >= 1]. *)
Theorem Rebalance_keeps_Value r :
  wf r ->
  (forall fuel r',
     Rebalance ratio_gt zero fuel r = Ok r' ->
     Value zero r' = Value zero r) /\
  (forall st fuel,
     uses st r -> 1 <= SplitLength st -> lenf r <= Z.of_nat fuel ->
     exists r',
       Rebalance ratio_gt zero (S fuel) r = Ok r' /\
       Value zero r' = Value zero r).
Proof.
  intros Hw.
  assert (Hkeep : forall fuel r',
    Rebalance ratio_gt zero fuel r = Ok r' -> Value zero r' = Value zero r).
  { intros fuel r' H. apply Rebalance_sound in H as (Hw' & Hc & _); auto.
    rewrite (Value_wf _ Hw'), (Value_wf _ Hw). now rewrite Hc. }
  split; [exact Hkeep|].
  intros st fuel Hu Hst Hf.
  destruct (@Rebalance_returns fuel st Hst r Hw Hu Hf) as (r' & Hr').
  exists r'. split; [exact Hr' | now apply Hkeep with (S fuel)].
Qed.

End Rebalancing.

(** ** Invariants of the ropes handed out *)

Lemma add_nonneg_inv a b :
  0 <= a <= max_int -> 0 <= b <= max_int -> 0 <= add a b -> add a b = a + b.
Proof.
  unfold add, wrap, max_int. intros Ha Hb H.
  destruct (Z.le_gt_cases (a + b) (2 ^ 63 - 1)) as [Hs|Hs].
  - rewrite Z.mod_small in * by lia. lia.
  - exfalso.
    replace (a + b + 2 ^ 63) with ((a + b - 2 ^ 63) + 1 * 2 ^ 64) in H by lia.
    rewrite Z.mod_add in H by lia. rewrite Z.mod_small in H by lia. lia.
Qed.

(** Writing through a window of a buffer keeps the buffer's length. *)
Lemma overwrite_length dst k w src :
  window_from dst k = Ok w -> lenl (take k dst ++ copy w src) = lenl dst.
Proof.
  intros H. apply window_from_inv in H as (Hk & ->).
  rewrite lenl_app, lenl_copy, lenl_take, lenl_drop by lia. lia.
Qed.

(** Whatever [Insert] returns, with any index, is a well-formed rope that
    is longer by the insertion, if it holds at most [max_int] elements. *)
Lemma Insert_inv fuel st insertion :
  len insertion <= max_int ->
  forall r, wf r -> uses st r -> lenf r <= max_int ->
  forall index r',
  Insert zero fuel r index insertion = Ok r' ->
  lenl (contents r') <= max_int ->
  wf r' /\ uses st r' /\ lenf r' = lenf r + len insertion.
Proof.
  intros Hk.
  pose proof (lenl_nonneg (elems_of insertion)) as Hx. fold (len insertion) in Hx.
  pose proof max_int_pos as Hmax.
  induction r as [|v n l IHl rt IHrt st']; [simpl; tauto|].
  destruct v as [|e sp].
  - intros (Hwl & Hwr & Hn) (-> & Hul & Hur) Hfit index r' H Hsz.
    pose proof (wf_lenf_nonneg _ Hwl). pose proof (wf_lenf_nonneg _ Hwr).
    cbn [lenf] in *. cbn [Insert] in H.
    rewrite (wf_length_of _ Hwl) in H. cbn [bind] in H.
    destruct (index <? lenf l).
    + bind_inv H. inversion H; subst r'; clear H.
      cbn [contents] in Hsz. rewrite lenl_app in Hsz.
      pose proof (lenl_nonneg (contents rt)). pose proof (lenl_nonneg (contents a)).
      apply IHl in Ha as (Hw' & Hu' & Hl'); auto; try lia.
      rewrite <- (wf_lenf _ Hw'), <- (wf_lenf _ Hwr) in Hsz.
      cbn [wf uses lenf]. rewrite add_id by (rewrite min_int_neg; lia).
      repeat split; auto. lia.
    + bind_inv H. inversion H; subst r'; clear H.
      cbn [contents] in Hsz. rewrite lenl_app in Hsz.
      pose proof (lenl_nonneg (contents l)). pose proof (lenl_nonneg (contents a)).
      apply IHrt in Ha as (Hw' & Hu' & Hl'); auto; try lia.
      rewrite <- (wf_lenf _ Hw'), <- (wf_lenf _ Hwl) in Hsz.
      cbn [wf uses lenf]. rewrite add_id by (rewrite min_int_neg; lia).
      repeat split; auto. lia.
  - intros (Hn & -> & ->) (-> & _) Hfit index r' H Hsz. subst n.
    pose proof (lenl_nonneg e) as He.
    cbn [lenf] in *. cbn [Insert] in H.
    bind_inv H as zs Hzs. apply make_inv in Hzs as (Hpos & Hlen).
    rewrite add_nonneg_inv in Hlen by lia.
    bind_inv H as s1 Hs1. bind_inv H as w1 Hw1.
    bind_inv H as w2 Hw2. bind_inv H as s2 Hs2.
    apply NewRope_sound in H as (Hw & Hu & Hc & Hl).
    repeat split; auto. rewrite Hl.
    rewrite (overwrite_length _ _ _ Hw2), (overwrite_length _ _ _ Hw1).
    rewrite lenl_copy. exact Hlen.
Qed.

(** Whatever [Remove] returns, with any range, is a well-formed rope, if
    it holds at most [max_int] elements. *)
Lemma Remove_inv fuel st : forall r,
  wf r -> uses st r ->
  forall start end_ r',
  Remove zero fuel r start end_ = Ok r' ->
  lenl (contents r') <= max_int ->
  wf r' /\ uses st r'.
Proof.
  pose proof max_int_pos as Hmax.
  induction r as [|v n l IHl rt IHrt st']; [simpl; tauto|].
  intros Hw Hu start end_ r' H Hsz.
  destruct (Z.eq_dec start end_) as [->|Hne].
  { assert (r' = mk v n l rt st') as ->; [|now split].
    destruct v; cbn [Remove] in H; rewrite Z.eqb_refl in H; now inversion H. }
  destruct v as [|e sp].
  - destruct Hw as (Hwl & Hwr & Hn). destruct Hu as (-> & Hul & Hur).
    cbn [Remove] in H. destruct (Z.eqb_spec start end_); [lia|].
    bind_inv H as ll Hll.
    destruct (bound start end_ ll) as (leftStart, leftEnd).
    bind_inv H as cl Hcl. bind_inv H as rl Hrl.
    destruct (bound (sub start ll) (sub end_ ll) rl) as (rightStart, rightEnd).
    bind_inv H as cr Hcr. bind_inv H as cll Hcll. bind_inv H as crl Hcrl.
    apply length_of_lenf in Hcll, Hcrl. subst cll crl.
    unfold adjust, adjust_with in H.
    destruct (add (lenf cl) (lenf cr) <? JoinLength st).
    + bind_inv H as buf Hbuf. bind_inv H as buf1 Hbuf1.
      bind_inv H as k Hk. bind_inv H as w Hw. bind_inv H as w' Hw'.
      inversion H; subst r'; clear H.
      apply make_inv in Hbuf as (Hpos & Hbuf).
      apply Copy_length in Hbuf1. apply Copy_length in Hw'.
      apply window_to_inv in Hw as (Hkb & ->).
      cbn [wf uses fresh]. repeat split; auto.
      rewrite lenl_app, Hw', lenl_take, lenl_drop by lia. lia.
    + inversion H; subst r'; clear H.
      cbn [contents] in Hsz. rewrite lenl_app in Hsz.
      pose proof (lenl_nonneg (contents cl)).
      pose proof (lenl_nonneg (contents cr)).
      apply IHl in Hcl as (Hwcl & Hucl); auto; try lia.
      apply IHrt in Hcr as (Hwcr & Hucr); auto; try lia.
      rewrite <- (wf_lenf _ Hwcl), <- (wf_lenf _ Hwcr) in Hsz.
      pose proof (wf_lenf_nonneg _ Hwcl). pose proof (wf_lenf_nonneg _ Hwcr).
      cbn [wf uses]. rewrite add_id by (rewrite min_int_neg; lia).
      repeat split; auto.
  - destruct Hu as (-> & _).
    cbn [Remove] in H. destruct (Z.eqb_spec start end_); [lia|].
    bind_inv H as zs Hzs. bind_inv H as s1 Hs1.
    bind_inv H as w1 Hw1. bind_inv H as s2 Hs2.
    apply NewRope_sound in H as (Hw' & Hu' & _). now split.
Qed.

(** [NewRope] on a nil slice: the node is taken for a split one.  When
    the join fires it reads the missing left child; otherwise the node is
    returned marked as split, without children. *)
Lemma NewRope_nil fuel st :
  NewRope zero (S fuel) (nil_slice T) st
  = if 0 <? JoinLength st then Panic else Ok (childless T st).
Proof.
  cbn [NewRope adjust_with]. change (len (nil_slice T)) with 0.
  destruct (0 <? JoinLength st); reflexivity.
Qed.

Lemma produced_inv P st r :
  produced zero P st r ->
  (wf r /\ uses st r /\ lenl (contents r) <= max_int)
  \/ (r = childless T st /\ P (nil_slice T)).
Proof.
  induction 1 as [fuel v r HP Hv H | fuel r index insertion r' Hr IH Hk H Hsz
                 | fuel r start end_ r' Hr IH H Hsz].
  - destruct v as [|e sp].
    + destruct fuel as [|fuel]; [discriminate|].
      rewrite NewRope_nil in H. destruct (0 <? JoinLength st); [discriminate|].
      inversion H. now right.
    + apply NewRope_sound in H as (Hw & Hu & Hc & Hl).
      left. rewrite Hc. auto.
  - destruct IH as [(Hw & Hu & Hs) | (-> & _)]; [|discriminate].
    left. rewrite <- (wf_lenf _ Hw) in Hs.
    edestruct Insert_inv as (Hw' & Hu' & _);
      [exact Hk | exact Hw | exact Hu | exact Hs | exact H | exact Hsz |].
    auto.
  - destruct IH as [(Hw & Hu & Hs) | (-> & HP)].
    + left. edestruct Remove_inv as (Hw' & Hu');
        [exact Hw | exact Hu | exact H | exact Hsz |].
      auto.
    + right. split; [|exact HP].
      unfold childless in H. cbn [Remove length_of bind] in H.
      destruct (start =? end_); [now inversion H | discriminate].
Qed.


Lemma wf_one_shape r : wf r -> Forall (@one_shape _ _) (nodes r).
Proof.
  induction r as [|v n l IHl rt IHrt st]; [simpl; tauto|].
  intros Hw. cbn [nodes]. destruct v as [|e sp].
  - destruct Hw as (Hl & Hr & _). constructor.
    + right. destruct l; [contradiction|]. destruct rt; [contradiction|].
      cbn. tauto.
    + apply Forall_app. auto.
  - destruct Hw as (_ & -> & ->). constructor; [|constructor].
    left. cbn. tauto.
Qed.

(** ** The claims *)

(** C3, as amended: under settings with [SplitLength >= 1], for every
    non-nil slice [v], every index [0 <= index <= len(v)] and every
    insertion such that the new length is an [int], [NewRope] returns a
    rope [r], [Insert] on it returns a rope whose [Value()] is
    [v[:index] + insertion + v[index:]], and [r.Value()] is still the
    sequence of [v]; a recursion depth beyond the new length suffices. *)
Theorem Insert_spliced st (v : slice T) index (insertion : slice T) fuel :
  non_nil v ->
  1 <= SplitLength st ->
  0 <= index <= len v ->
  len v + len insertion <= max_int ->
  len v + len insertion <= Z.of_nat fuel ->
  exists r r',
    NewRope zero (S fuel) v st = Ok r /\
    Insert zero (S fuel) r index insertion = Ok r' /\
    Value zero r' = Ok (take index (elems_of v) ++ elems_of insertion
                        ++ drop index (elems_of v)) /\
    Value zero r = Ok (elems_of v).
Proof.
  intros Hv Hst Hi Hfit Hfuel. destruct v as [|e sp]; [discriminate|].
  unfold len in *. cbn [elems_of] in *.
  pose proof (lenl_nonneg (elems_of insertion)) as Hx.
  destruct (@NewRope_returns st Hst fuel e sp) as (r & Hr); [lia|].
  pose proof (NewRope_sound _ _ _ _ Hr) as (Hw & Hu & Hc & Hl).
  destruct (@Insert_returns fuel st insertion Hst r Hw Hu index) as (r' & Hr');
    unfold len; try lia.
  pose proof (@Insert_sound (S fuel) st insertion r Hw Hu index r') as Hs.
  destruct Hs as (Hw' & _ & Hc' & _); unfold len; try lia; [exact Hr'|].
  exists r, r'. rewrite (Value_wf _ Hw'), (Value_wf _ Hw), Hc', Hc. auto.
Qed.

(** C5: for every well-formed rope [r], whose length is an [int], and all
    [0 <= a <= b <= r.Length()], [r.Slice(a, b)] returns
    [r.Value()[a:b]]. *)
Theorem Slice_is_Value_range r a b n :
  wf r -> lenf r <= max_int ->
  Length r = Ok n ->
  0 <= a <= b -> b <= n ->
  exists v s,
    Value zero r = Ok v /\
    slice_range v [] a b = Ok s /\
    Slice zero r a b = Ok (elems_of s).
Proof.
  intros Hw Hfit Hn Ha Hb. apply length_of_lenf in Hn. subst n.
  rewrite (wf_lenf _ Hw) in Hb.
  destruct (@slice_range_Ok (contents r) [] a b) as (sp' & Hs); [lia | lia |].
  exists (contents r), (mk_slice (take (b - a) (drop a (contents r))) sp').
  split; [now apply Value_wf|]. split; [exact Hs|].
  cbn [elems_of]. apply Slice_wf; auto. rewrite (wf_lenf _ Hw). lia.
Qed.


(** C7: [Remove(x, x)] returns the rope it is called on, for every rope
    and every [x]; the returned rope has the [Value()] of the receiver. *)
Theorem Remove_empty_range fuel r x :
  Remove zero fuel r x x = Ok r /\
  (forall r', Remove zero fuel r x x = Ok r' -> Value zero r' = Value zero r).
Proof.
  assert (H : Remove zero fuel r x x = Ok r).
  { destruct r as [|v n l rt st]; cbn [Remove]; now rewrite Z.eqb_refl. }
  split; [exact H|]. intros r' H'. rewrite H in H'. now inversion H'.
Qed.

(** C8, as amended: for every non-nil slice [v] with
    [len(v) <= SplitLength], under settings with
    [SplitLength > JoinLength], [NewRope] returns a single Leaf that
    holds [v] itself and has no children. *)
Theorem NewRope_short_is_Leaf st (v : slice T) fuel :
  non_nil v ->
  len v <= SplitLength st ->
  JoinLength st < SplitLength st ->
  NewRope zero (S fuel) v st = Ok (mk v (len v) (null _ _) (null _ _) st) /\
  is_Leaf (mk v (len v) (null _ _) (null _ _) st).
Proof.
  intros Hv Hs _. destruct v as [|e sp]; [discriminate|].
  split; [now apply NewRope_leaf | exact I].
Qed.

(** C9: under settings with [SplitLength >= 1], [NewRope] terminates on
    every slice: the two halves of a buffer that is split are strictly
    shorter than the buffer, and a recursion depth beyond the buffer's
    length is never exceeded. *)
Theorem NewRope_terminates st (v : slice T) :
  1 <= SplitLength st ->
  (forall e sp lv rv,
     v = mk_slice e sp -> SplitLength st < len v ->
     slice_to e sp (Z.quot (len v) 2) = Ok lv ->
     slice_from e sp (Z.quot (len v) 2) = Ok rv ->
     len lv < len v /\ len rv < len v) /\
  (forall fuel,
     len v <= Z.of_nat fuel -> NewRope zero (S fuel) v st <> Timeout).
Proof.
  intros Hst. split.
  - intros e sp lv rv -> Hs Hl Hr. unfold len in *. cbn [elems_of] in *.
    pose proof (half_bounds (lenl_nonneg e)) as Hh.
    destruct (@half_shorter (lenl e)) as (H1 & H2); [lia|].
    rewrite slice_to_Ok in Hl by lia. rewrite slice_from_Ok in Hr by lia.
    inversion Hl; inversion Hr; subst. cbn [elems_of].
    rewrite lenl_take, lenl_drop by lia. lia.
  - intros fuel Hf. destruct v as [|e sp].
    + rewrite NewRope_nil. destruct (0 <? JoinLength st); discriminate.
    + destruct (@NewRope_returns st Hst fuel e sp Hf) as (r & ->).
      discriminate.
Qed.

(** [NewRope] on a non-nil buffer reads no child. *)
Lemma NewRope_no_panic st : forall fuel e sp,
  NewRope zero fuel (mk_slice e sp) st <> Panic.
Proof.
  induction fuel as [|fuel IH]; intros e sp; [discriminate|].
  destruct (Z.ltb_spec (SplitLength st) (lenl e)) as [Hs|Hs].
  - rewrite NewRope_split by assumption.
    pose proof (IH (take (Z.quot (lenl e) 2) e)
                   (drop (Z.quot (lenl e) 2) e ++ sp)) as Hl.
    pose proof (IH (drop (Z.quot (lenl e) 2) e) sp) as Hr.
    destruct (NewRope zero fuel (mk_slice (take _ e) _) st);
      cbn [bind]; try congruence.
    destruct (NewRope zero fuel (mk_slice (drop _ e) sp) st);
      cbn [bind]; congruence.
  - rewrite NewRope_leaf by assumption. discriminate.
Qed.

Section Shapes.

Variable ratio_gt : Z -> Z -> float32 -> bool.

(** On a well-formed rope [Rebalance] reads no missing child. *)
Lemma Rebalance_no_panic fuel : forall r,
  wf r -> Rebalance ratio_gt zero fuel r <> Panic.
Proof.
  induction r as [|v n l IHl rt IHrt st]; [simpl; tauto|].
  intros Hw. destruct v as [|e sp]; cbn [Rebalance]; [|discriminate].
  pose proof Hw as (Hwl & Hwr & Hn).
  rewrite (wf_length_of _ Hwl), (wf_length_of _ Hwr). cbn [bind].
  destruct (ratio_gt (lenf l) (lenf rt) (Rebalance_ratio st)
            || ratio_gt (lenf rt) (lenf l) (Rebalance_ratio st)).
  - rewrite (Value_wf _ Hw). cbn [bind]. apply NewRope_no_panic.
  - specialize (IHl Hwl). specialize (IHrt Hwr).
    destruct (Rebalance ratio_gt zero fuel l); cbn [bind]; try congruence.
    destruct (Rebalance ratio_gt zero fuel rt); cbn [bind]; congruence.
Qed.

(** C10: in every rope that [NewRope] returned for a non-nil buffer, or
    that [Insert] or [Remove] derived from such a rope, every reachable
    node is a Leaf (non-nil buffer, no children) or an Internal node (nil
    buffer, both children) and not both.  So [Value], [Copy] into a
    destination that is long enough and [CopySlice] of a range within the
    rope return, and [Rebalance] does not panic: none of them meets an
    Internal node with a missing child. *)
Theorem produced_shapes st r :
  produced zero (@non_nil T) st r ->
  Forall (@one_shape _ _) (nodes r) /\
  (exists v, Value zero r = Ok v) /\
  (forall dst, lenf r <= lenl dst -> exists d, Copy r dst = Ok d) /\
  (forall dst a b,
     0 <= a <= b -> b <= lenf r -> b - a <= lenl dst ->
     exists d, CopySlice r dst a b = Ok d) /\
  (forall fuel, Rebalance ratio_gt zero fuel r <> Panic).
Proof.
  intros H. apply produced_inv in H as [(Hw & _ & Hsz) | (_ & HP)];
    [|discriminate].
  rewrite <- (wf_lenf _ Hw) in Hsz.
  split; [now apply wf_one_shape|].
  split; [exists (contents r); now apply Value_wf|].
  split; [intros dst Hd; eexists; now apply Copy_wf|].
  split; [intros dst a b Ha Hb Hd; eexists; now apply CopySlice_wf|].
  intros fuel. now apply Rebalance_no_panic.
Qed.

End Shapes.

(** * Further properties of the package *)

(** ** [bound] *)

(** [bound] clamps both indexes into [[0, length]], keeps their order,
    and leaves indexes within the range alone. *)
Theorem bound_clamps start end_ length :
  0 <= length ->
  0 <= fst (bound start end_ length) <= length /\
  0 <= snd (bound start end_ length) <= length /\
  (start <= end_ ->
   fst (bound start end_ length) <= snd (bound start end_ length)) /\
  (0 <= start <= length -> fst (bound start end_ length) = start) /\
  (0 <= end_ <= length -> snd (bound start end_ length) = end_).
Proof.
  intros Hl. unfold bound. rewrite !Z.gtb_ltb. cbn [fst snd].
  destruct (Z.ltb_spec start 0); destruct (Z.ltb_spec end_ 0);
    destruct (Z.ltb_spec length start); destruct (Z.ltb_spec length end_);
    repeat split; lia.
Qed.

(** ** [NewRope] *)

(** Under a split threshold of at least one, [NewRope] on a non-nil
    buffer returns a rope whose [Value()] is the buffer's sequence and
    whose [Length()] is its length. *)
Theorem NewRope_round_trip st e sp fuel :
  1 <= SplitLength st ->
  lenl e <= Z.of_nat fuel ->
  exists r,
    NewRope zero (S fuel) (mk_slice e sp) st = Ok r /\
    Value zero r = Ok e /\
    Length r = Ok (lenl e).
Proof.
  intros Hst Hf.
  destruct (@NewRope_returns st Hst fuel e sp Hf) as (r & Hr).
  pose proof (NewRope_sound _ _ _ _ Hr) as (Hw & _ & Hc & Hl).
  exists r. split; [exact Hr|]. split.
  - rewrite (Value_wf _ Hw). now rewrite Hc.
  - unfold Length. rewrite (wf_length_of _ Hw). now rewrite Hl.
Qed.

Lemma NewRope_thresholds st : forall fuel e sp r,
  NewRope zero fuel (mk_slice e sp) st = Ok r ->
  Forall (leaf_within st) (nodes r) /\
  Forall (internal_above (SplitLength st + 1)) (nodes r).
Proof.
  induction fuel as [|fuel IH]; intros e sp r H; [discriminate|].
  destruct (Z.ltb_spec (SplitLength st) (lenl e)) as [Hs|Hs].
  - rewrite NewRope_split in H by assumption.
    bind_inv H as l Hl. bind_inv H as rt Hr.
    inversion H; subst r; clear H.
    apply IH in Hl as (Hl1 & Hl2). apply IH in Hr as (Hr1 & Hr2).
    cbn [nodes]. split; constructor; try apply Forall_app; auto.
    + exact I.
    + cbn. lia.
  - rewrite NewRope_leaf in H by assumption.
    inversion H; subst r; clear H. cbn [nodes app].
    split; constructor; try constructor; cbn; auto.
Qed.

(** In a rope that [NewRope] returns, every Leaf holds at most
    [SplitLength] elements and every Internal node more. *)
Theorem NewRope_respects_split st fuel e sp r :
  NewRope zero fuel (mk_slice e sp) st = Ok r ->
  Forall (leaf_within st) (nodes r) /\
  Forall (internal_above (SplitLength st + 1)) (nodes r).
Proof. apply NewRope_thresholds. Qed.

(** [maxDepth] on a well-formed rope returns. *)
Lemma maxDepth_wf : forall r,
  wf r -> exists d, maxDepth r = Ok d.
Proof.
  induction r as [|v n l IHl rt IHrt st]; [simpl; tauto|].
  intros Hw. destruct v as [|e sp]; cbn [maxDepth]; [|eauto].
  destruct Hw as (Hwl & Hwr & _).
  destruct (IHl Hwl) as (dl & ->). destruct (IHrt Hwr) as (dr & ->).
  cbn [bind]. destruct (dl >? dr); eauto.
Qed.

(** The rope that [NewRope] builds is balanced: a buffer of at most
    [SplitLength * 2^k] elements gives a [maxDepth] of at most [k + 1]. *)
Theorem NewRope_maxDepth st :
  1 <= SplitLength st ->
  forall (k : nat) fuel e sp r,
  lenl e <= SplitLength st * 2 ^ Z.of_nat k ->
  Z.of_nat k < max_int ->
  NewRope zero fuel (mk_slice e sp) st = Ok r ->
  exists d, maxDepth r = Ok d /\ 1 <= d <= Z.of_nat k + 1.
Proof.
  intros Hst. pose proof max_int_pos as Hmax.
  induction k as [|k IH]; intros fuel e sp r Hn Hk H;
    (destruct fuel as [|fuel]; [discriminate|]).
  - change (Z.of_nat 0) with 0 in Hn. rewrite Z.pow_0_r, Z.mul_1_r in Hn.
    rewrite NewRope_leaf in H by exact Hn.
    inversion H; subst r. exists 1. cbn. split; [reflexivity | lia].
  - destruct (Z.ltb_spec (SplitLength st) (lenl e)) as [Hs|Hs].
    + rewrite NewRope_split in H by assumption.
      bind_inv H as l Hl. bind_inv H as rt Hr.
      inversion H; subst r; clear H.
      pose proof (lenl_nonneg e) as He.
      pose proof (half_bounds He) as Hh.
      rewrite Nat2Z.inj_succ, Z.pow_succ_r in Hn by lia.
      assert (Hq : Z.quot (lenl e) 2 = lenl e / 2)
        by (apply Z.quot_div_nonneg; lia).
      pose proof (Z.div_mod (lenl e) 2) as Hdm.
      pose proof (Z.mod_pos_bound (lenl e) 2) as Hmb.
      rewrite Hq in *.
      set (half := lenl e / 2) in *. set (p := 2 ^ Z.of_nat k) in *.
      apply IH in Hl as (dl & Hdl & Hbl);
        [| rewrite lenl_take by lia; fold p; lia | lia].
      apply IH in Hr as (dr & Hdr & Hbr);
        [| rewrite lenl_drop by lia; fold p; lia | lia].
      cbn [maxDepth]. rewrite Hdl, Hdr. cbn [bind].
      destruct (dl >? dr); eexists; (split; [reflexivity|]);
        rewrite add_id by (rewrite min_int_neg; lia); lia.
    + rewrite NewRope_leaf in H by assumption.
      inversion H; subst r. exists 1. cbn. split; [reflexivity | lia].
Qed.

(** Under a split threshold below one, [NewRope] on a buffer longer than
    the threshold is split again and again: it returns at no depth. *)
Theorem NewRope_needs_positive_split st :
  SplitLength st < 1 ->
  forall fuel e sp,
  SplitLength st < lenl e ->
  NewRope zero fuel (mk_slice e sp) st = Timeout.
Proof.
  intros Hst. induction fuel as [|fuel IH]; intros e sp Hs; [reflexivity|].
  rewrite NewRope_split by assumption.
  pose proof (lenl_nonneg e) as He. pose proof (half_bounds He) as Hh.
  assert (Hq : Z.quot (lenl e) 2 = lenl e / 2)
    by (apply Z.quot_div_nonneg; lia).
  pose proof (Z.div_mod (lenl e) 2) as Hdm.
  pose proof (Z.mod_pos_bound (lenl e) 2) as Hmb.
  rewrite (IH (drop (Z.quot (lenl e) 2) e) sp)
    by (rewrite lenl_drop by lia; rewrite Hq; lia).
  pose proof (@NewRope_no_panic st fuel (take (Z.quot (lenl e) 2) e)
                (drop (Z.quot (lenl e) 2) e ++ sp)) as Hp.
  destruct (NewRope zero fuel (mk_slice (take _ e) _) st);
    cbn [bind]; congruence.
Qed.

(** ** [Copy] and [CopySlice] into a caller's buffer *)

Lemma Copy_no_timeout : forall r dst, Copy r dst <> Timeout.
Proof.
  induction r as [|v n l IHl rt IHrt st]; intros dst; cbn [Copy];
    [discriminate|].
  destruct v as [|e sp]; [|discriminate].
  specialize (IHl dst).
  destruct l as [|lv ll l1 l2 lst]; [cbn [Copy bind]; discriminate|].
  destruct (Copy (mk lv ll l1 l2 lst) dst) as [dst1| |];
    cbn [bind length_of]; try congruence.
  unfold window_from.
  destruct ((0 <=? ll) && (ll <=? lenl dst1)); cbn [bind];
    [|discriminate].
  specialize (IHrt (drop ll dst1)).
  destruct (Copy rt (drop ll dst1)); cbn [bind]; congruence.
Qed.



(** On an Internal node, a destination shorter than the left child makes
    [Copy] panic: the window [dst[r.left.length:]] does not exist. *)
Theorem Copy_short_destination_panics n l rt st dst :
  wf (mk (nil_slice T) n l rt st) ->
  lenl dst < lenf l ->
  Copy (mk (nil_slice T) n l rt st) dst = Panic.
Proof.
  intros (Hwl & Hwr & Hn) Hd. cbn [Copy].
  pose proof (Copy_no_timeout l dst) as Hnt.
  destruct (Copy l dst) as [dst1| |] eqn:E; cbn [bind]; try congruence.
  rewrite (wf_length_of _ Hwl). cbn [bind].
  apply Copy_length in E. unfold window_from.
  destruct (Z.leb_spec 0 (lenf l)); destruct (Z.leb_spec (lenf l) (lenl dst1));
    cbn [andb bind]; try reflexivity. lia.
Qed.


(** ** [Insert] on any rope *)

Lemma window_from_Panic (dst : list T) k :
  k < 0 \/ lenl dst < k -> window_from dst k = Panic.
Proof.
  intros H. unfold window_from.
  destruct (Z.leb_spec 0 k); destruct (Z.leb_spec k (lenl dst));
    cbn [andb]; try reflexivity. lia.
Qed.

(** Within the contract [Insert] returns, on every well-formed rope over
    settings with [SplitLength >= 1]. *)
Lemma Insert_ok fuel st insertion r index :
  1 <= SplitLength st -> wf r -> uses st r ->
  0 <= index <= lenf r ->
  lenf r + len insertion <= max_int ->
  lenf r + len insertion <= Z.of_nat fuel ->
  exists r',
    Insert zero (S fuel) r index insertion = Ok r' /\
    wf r' /\ uses st r' /\
    contents r' = take index (contents r) ++ elems_of insertion
                  ++ drop index (contents r) /\
    lenf r' = lenf r + len insertion.
Proof.
  intros Hst Hw Hu Hi Hfit Hf.
  destruct (@Insert_returns fuel st insertion Hst r Hw Hu index Hi Hfit Hf)
    as (r' & Hr').
  exists r'. split; [exact Hr'|].
  now apply (@Insert_sound (S fuel) st insertion r Hw Hu index r').
Qed.

(** On every well-formed rope over settings with [SplitLength >= 1],
    [Insert] within its contract returns a rope whose [Value()] is the
    receiver's with the insertion spliced in and whose [Length()] is the
    receiver's plus the insertion's. *)
Theorem Insert_on_any_rope fuel st insertion r index :
  1 <= SplitLength st -> wf r -> uses st r ->
  0 <= index <= lenf r ->
  lenf r + len insertion <= max_int ->
  lenf r + len insertion <= Z.of_nat fuel ->
  exists v n r',
    Value zero r = Ok v /\ Length r = Ok n /\
    Insert zero (S fuel) r index insertion = Ok r' /\
    Value zero r' = Ok (take index v ++ elems_of insertion ++ drop index v) /\
    Length r' = Ok (n + len insertion).
Proof.
  intros Hst Hw Hu Hi Hfit Hf.
  destruct (@Insert_ok fuel st insertion r index) as (r' & Hr' & Hw' & _ & Hc & Hl);
    auto.
  exists (contents r), (lenf r), r'.
  split; [now apply Value_wf|]. split; [now apply wf_length_of|].
  split; [exact Hr'|]. split.
  - rewrite (Value_wf _ Hw'). now rewrite Hc.
  - unfold Length. rewrite (wf_length_of _ Hw'). now rewrite Hl.
Qed.

(** An index outside [[0, Length()]] makes [Insert] panic, on every
    well-formed rope: no rope is returned. *)
Theorem Insert_out_of_range_panics fuel insertion : forall r,
  wf r -> lenf r <= max_int -> len insertion <= max_int ->
  forall index,
  min_int <= index <= max_int ->
  index < 0 \/ lenf r < index ->
  Insert zero fuel r index insertion = Panic.
Proof.
  pose proof (lenl_nonneg (elems_of insertion)) as Hx. fold (len insertion) in Hx.
  pose proof max_int_pos as Hmax.
  induction r as [|v n l IHl rt IHrt st]; [simpl; tauto|].
  intros Hw Hfit Hk index Hint Hout. destruct v as [|e sp].
  - destruct Hw as (Hwl & Hwr & Hn).
    pose proof (wf_lenf_nonneg _ Hwl). pose proof (wf_lenf_nonneg _ Hwr).
    cbn [lenf] in *. cbn [Insert].
    rewrite (wf_length_of _ Hwl). cbn [bind].
    destruct (Z.ltb_spec index (lenf l)) as [Hlt|Hge].
    + rewrite IHl; auto; lia.
    + rewrite sub_id by (rewrite min_int_neg in *; lia).
      rewrite IHrt; auto; rewrite ?min_int_neg in *; lia.
  - destruct Hw as (Hn & _). subst n. pose proof (lenl_nonneg e) as He.
    cbn [lenf] in *. cbn [Insert].
    destruct (make zero (add (lenl e) (len insertion))) as [zs| |] eqn:Ezs;
      cbn [bind]; try reflexivity;
      [| unfold make in Ezs;
         destruct (add (lenl e) (len insertion) <? 0); discriminate].
    apply make_inv in Ezs as (Hpos & Hzs).
    rewrite add_nonneg_inv in Hzs by lia.
    destruct (slice_to e sp index) as [s1| |] eqn:Es1;
      cbn [bind]; try reflexivity;
      [| unfold slice_to in Es1;
         destruct ((0 <=? index) && (index <=? lenl e + lenl sp));
         discriminate].
    assert (H0 : 0 <= index).
    { unfold slice_to in Es1. destruct (Z.leb_spec 0 index); [assumption|].
      discriminate. }
    destruct (window_from (copy zs (elems_of s1)) index) as [w1| |] eqn:Ew1;
      cbn [bind]; try reflexivity;
      [| unfold window_from in Ew1;
         destruct ((0 <=? index) && (index <=? lenl (copy zs (elems_of s1))));
         discriminate].
    rewrite window_from_Panic; [reflexivity|].
    rewrite (overwrite_length _ _ _ Ew1), lenl_copy, Hzs.
    destruct (Z.le_gt_cases (index + len insertion) max_int) as [Hs|Hs].
    + rewrite add_id by (rewrite min_int_neg; lia). lia.
    + left. apply add_overflow; lia.
Qed.

(** Two insertions one behind the other give the [Value()] of one
    insertion of both sequences. *)
Theorem Insert_twice fuel st (x y : list T) r index :
  1 <= SplitLength st -> wf r -> uses st r ->
  0 <= index <= lenf r ->
  lenf r + lenl x + lenl y <= max_int ->
  lenf r + lenl x + lenl y <= Z.of_nat fuel ->
  exists r1 r2 r12,
    Insert zero (S fuel) r index (fresh x) = Ok r1 /\
    Insert zero (S fuel) r1 (index + lenl x) (fresh y) = Ok r2 /\
    Insert zero (S fuel) r index (fresh (x ++ y)) = Ok r12 /\
    Value zero r2 = Value zero r12.
Proof.
  intros Hst Hw Hu Hi Hfit Hf.
  pose proof (lenl_nonneg x) as Hx. pose proof (lenl_nonneg y) as Hy.
  pose proof (wf_lenf _ Hw) as Hc.
  destruct (@Insert_ok fuel st (fresh x) r index)
    as (r1 & Hr1 & Hw1 & Hu1 & Hc1 & Hl1); auto;
    try (unfold len; cbn [elems_of fresh]; lia).
  destruct (@Insert_ok fuel st (fresh y) r1 (index + lenl x))
    as (r2 & Hr2 & Hw2 & Hu2 & Hc2 & Hl2); auto;
    try (rewrite Hl1; unfold len; cbn [elems_of fresh]; lia).
  destruct (@Insert_ok fuel st (fresh (x ++ y)) r index)
    as (r12 & Hr12 & Hw12 & Hu12 & Hc12 & Hl12); auto;
    try (unfold len; cbn [elems_of fresh]; rewrite lenl_app; lia).
  exists r1, r2, r12. repeat split; auto.
  rewrite (Value_wf _ Hw2), (Value_wf _ Hw12). f_equal.
  rewrite Hc2, Hc12, Hc1. cbn [elems_of fresh].
  set (c := contents r) in *.
  assert (Ht : lenl (take index c) = index) by (apply lenl_take; lia).
  rewrite (app_assoc (take index c) x).
  replace (index + lenl x) with (lenl (take index c ++ x))
    by (rewrite lenl_app; lia).
  rewrite take_lenl_app, drop_lenl_app.
  now rewrite <- !app_assoc.
Qed.

(** ** The thresholds in the ropes handed out *)

Lemma Forall_internal_above_weaken (a b : Z) (l : list rope) :
  b <= a -> Forall (internal_above a) l -> Forall (internal_above b) l.
Proof.
  intros Hab. apply Forall_impl. intros [|[|e sp] n l' rt st]; cbn; auto.
  lia.
Qed.

Lemma Forall_nodes_inv (P : rope -> Prop) v n l rt st :
  Forall P (nodes (mk v n l rt st)) ->
  P (mk v n l rt st) /\ Forall P (nodes l) /\ Forall P (nodes rt).
Proof.
  cbn [nodes]. intros H. inversion H as [|x xs Hx Hxs]; subst.
  apply Forall_app in Hxs. tauto.
Qed.

Lemma Forall_nodes_intro (P : rope -> Prop) v n l rt st :
  P (mk v n l rt st) -> Forall P (nodes l) -> Forall P (nodes rt) ->
  Forall P (nodes (mk v n l rt st)).
Proof.
  intros H Hl Hr. cbn [nodes]. constructor; [exact H|].
  apply Forall_app. now split.
Qed.

(** [Insert], with any index, keeps every Leaf within the split
    threshold. *)
Lemma Insert_keeps_leaf_within fuel st insertion : forall r index r',
  uses st r -> Forall (leaf_within st) (nodes r) ->
  Insert zero fuel r index insertion = Ok r' ->
  Forall (leaf_within st) (nodes r').
Proof.
  induction r as [|v n l IHl rt IHrt st']; intros index r' Hu HF H;
    [discriminate|].
  destruct Hu as (-> & Hul & Hur).
  apply Forall_nodes_inv in HF as (_ & HFl & HFr).
  destruct v as [|e sp]; cbn [Insert] in H.
  - bind_inv H as ll Hll. destruct (index <? ll).
    + bind_inv H as cl Hcl. inversion H; subst r'.
      apply Forall_nodes_intro; [exact I | eauto | assumption].
    + bind_inv H as cr Hcr. inversion H; subst r'.
      apply Forall_nodes_intro; [exact I | assumption | eauto].
  - bind_inv H as zs Hzs. bind_inv H as s1 Hs1. bind_inv H as w1 Hw1.
    bind_inv H as w2 Hw2. bind_inv H as s2 Hs2.
    now apply NewRope_thresholds in H.
Qed.

(** [Remove], with any range, keeps every Leaf within the split
    threshold when [JoinLength <= SplitLength + 1]: a joined Leaf is
    shorter than the join threshold. *)
Lemma Remove_keeps_leaf_within fuel st :
  JoinLength st <= SplitLength st + 1 ->
  forall r start end_ r',
  uses st r -> Forall (leaf_within st) (nodes r) ->
  Remove zero fuel r start end_ = Ok r' ->
  Forall (leaf_within st) (nodes r').
Proof.
  intros Hj.
  induction r as [|v n l IHl rt IHrt st']; intros start end_ r' Hu HF H.
  { cbn [Remove] in H. destruct (start =? end_); now inversion H. }
  destruct (Z.eq_dec start end_) as [->|Hne].
  { assert (r' = mk v n l rt st') as ->; [|exact HF].
    destruct v; cbn [Remove] in H; rewrite Z.eqb_refl in H; now inversion H. }
  destruct Hu as (-> & Hul & Hur).
  apply Forall_nodes_inv in HF as (_ & HFl & HFr).
  destruct v as [|e sp]; cbn [Remove] in H;
    (destruct (Z.eqb_spec start end_); [lia|]).
  - bind_inv H as ll Hll.
    destruct (bound start end_ ll) as (leftStart, leftEnd).
    bind_inv H as cl Hcl. bind_inv H as rl Hrl.
    destruct (bound (sub start ll) (sub end_ ll) rl) as (rightStart, rightEnd).
    bind_inv H as cr Hcr. bind_inv H as cll Hcll. bind_inv H as crl Hcrl.
    apply IHl in Hcl; auto. apply IHrt in Hcr; auto.
    unfold adjust, adjust_with in H.
    destruct (Z.ltb_spec (add cll crl) (JoinLength st)) as [Hlt|Hge].
    + bind_inv H as buf Hbuf. bind_inv H as buf1 Hbuf1.
      bind_inv H as k Hk. bind_inv H as w Hw. bind_inv H as w' Hw'.
      inversion H; subst r'; clear H.
      apply make_inv in Hbuf as (Hpos & Hbuf).
      apply Copy_length in Hbuf1. apply Copy_length in Hw'.
      apply window_to_inv in Hw as (Hkb & ->).
      cbn [nodes app fresh]. constructor; [|constructor]. cbn.
      rewrite lenl_app, Hw', lenl_take, lenl_drop by lia. lia.
    + inversion H; subst r'.
      apply Forall_nodes_intro; [exact I | assumption | assumption].
  - bind_inv H as zs Hzs. bind_inv H as s1 Hs1.
    bind_inv H as w1 Hw1. bind_inv H as s2 Hs2.
    now apply NewRope_thresholds in H.
Qed.

(** [Remove], with any range, keeps the cached length of every Internal
    node at the join threshold or above, when
    [JoinLength <= SplitLength + 1]. *)
Lemma Remove_keeps_internal_above fuel st :
  JoinLength st <= SplitLength st + 1 ->
  forall r start end_ r',
  uses st r -> Forall (internal_above (JoinLength st)) (nodes r) ->
  Remove zero fuel r start end_ = Ok r' ->
  Forall (internal_above (JoinLength st)) (nodes r').
Proof.
  intros Hj.
  induction r as [|v n l IHl rt IHrt st']; intros start end_ r' Hu HF H.
  { cbn [Remove] in H. destruct (start =? end_); now inversion H. }
  destruct (Z.eq_dec start end_) as [->|Hne].
  { assert (r' = mk v n l rt st') as ->; [|exact HF].
    destruct v; cbn [Remove] in H; rewrite Z.eqb_refl in H; now inversion H. }
  destruct Hu as (-> & Hul & Hur).
  apply Forall_nodes_inv in HF as (_ & HFl & HFr).
  destruct v as [|e sp]; cbn [Remove] in H;
    (destruct (Z.eqb_spec start end_); [lia|]).
  - bind_inv H as ll Hll.
    destruct (bound start end_ ll) as (leftStart, leftEnd).
    bind_inv H as cl Hcl. bind_inv H as rl Hrl.
    destruct (bound (sub start ll) (sub end_ ll) rl) as (rightStart, rightEnd).
    bind_inv H as cr Hcr. bind_inv H as cll Hcll. bind_inv H as crl Hcrl.
    apply IHl in Hcl; auto. apply IHrt in Hcr; auto.
    unfold adjust, adjust_with in H.
    destruct (Z.ltb_spec (add cll crl) (JoinLength st)) as [Hlt|Hge].
    + bind_inv H as buf Hbuf. bind_inv H as buf1 Hbuf1.
      bind_inv H as k Hk. bind_inv H as w Hw. bind_inv H as w' Hw'.
      inversion H; subst r'; clear H.
      cbn [nodes app fresh]. constructor; [exact I | constructor].
    + inversion H; subst r'.
      apply Forall_nodes_intro; [exact Hge | assumption | assumption].
  - bind_inv H as zs Hzs. bind_inv H as s1 Hs1.
    bind_inv H as w1 Hw1. bind_inv H as s2 Hs2.
    apply NewRope_thresholds in H as (_ & H).
    revert H. apply Forall_internal_above_weaken. lia.
Qed.

(** [Insert], on a well-formed rope whose new contents fit in [int],
    keeps the cached length of every Internal node at the join
    threshold or above, when [JoinLength <= SplitLength + 1]. *)
Lemma Insert_keeps_internal_above fuel st insertion :
  JoinLength st <= SplitLength st + 1 ->
  len insertion <= max_int ->
  forall r, wf r -> uses st r -> lenf r <= max_int ->
  Forall (internal_above (JoinLength st)) (nodes r) ->
  forall index r',
  Insert zero fuel r index insertion = Ok r' ->
  lenl (contents r') <= max_int ->
  Forall (internal_above (JoinLength st)) (nodes r').
Proof.
  intros Hj Hk.
  pose proof (lenl_nonneg (elems_of insertion)) as Hx. fold (len insertion) in Hx.
  induction r as [|v n l IHl rt IHrt st']; [simpl; tauto|].
  intros Hw Hu Hfit HF index r' H Hsz.
  edestruct Insert_inv as (Hw' & _ & Hl');
    [exact Hk | exact Hw | exact Hu | exact Hfit | exact H | exact Hsz |].
  apply Forall_nodes_inv in HF as (Hroot & HFl & HFr).
  destruct v as [|e sp].
  - destruct Hw as (Hwl & Hwr & Hn). destruct Hu as (-> & Hul & Hur).
    pose proof (wf_lenf_nonneg _ Hwl). pose proof (wf_lenf_nonneg _ Hwr).
    cbn [lenf] in *. cbn [Insert] in H.
    bind_inv H as ll Hll. destruct (index <? ll).
    + bind_inv H as cl Hcl. inversion H; subst r'; clear H.
      cbn [contents] in Hsz. rewrite lenl_app in Hsz.
      pose proof (lenl_nonneg (contents rt)).
      apply Forall_nodes_intro; [cbn in *; lia | | assumption].
      eapply IHl; eauto; lia.
    + bind_inv H as cr Hcr. inversion H; subst r'; clear H.
      cbn [contents] in Hsz. rewrite lenl_app in Hsz.
      pose proof (lenl_nonneg (contents l)).
      apply Forall_nodes_intro; [cbn in *; lia | assumption |].
      eapply IHrt; eauto; lia.
  - destruct Hu as (-> & _). cbn [Insert] in H.
    bind_inv H as zs Hzs. bind_inv H as s1 Hs1. bind_inv H as w1 Hw1.
    bind_inv H as w2 Hw2. bind_inv H as s2 Hs2.
    apply NewRope_thresholds in H as (_ & H).
    revert H. apply Forall_internal_above_weaken. lia.
Qed.

Lemma produced_thresholds st r :
  JoinLength st <= SplitLength st + 1 ->
  produced zero (@non_nil T) st r ->
  Forall (leaf_within st) (nodes r) /\
  Forall (internal_above (JoinLength st)) (nodes r).
Proof.
  intros Hj.
  induction 1 as [fuel v r HP Hv H | fuel r index insertion r' Hr IH Hk H Hsz
                 | fuel r start end_ r' Hr IH H Hsz].
  - destruct v as [|e sp]; [discriminate|].
    apply NewRope_thresholds in H as (H1 & H2). split; [exact H1|].
    revert H2. apply Forall_internal_above_weaken. lia.
  - destruct IH as (IH1 & IH2).
    apply produced_inv in Hr as [(Hw & Hu & Hs) | (_ & HP)]; [|discriminate].
    rewrite <- (wf_lenf _ Hw) in Hs. split.
    + eapply Insert_keeps_leaf_within; eauto.
    + eapply Insert_keeps_internal_above; eauto.
  - destruct IH as (IH1 & IH2).
    apply produced_inv in Hr as [(Hw & Hu & Hs) | (_ & HP)]; [|discriminate].
    split.
    + eapply Remove_keeps_leaf_within; eauto.
    + eapply Remove_keeps_internal_above; eauto.
Qed.

(** In every rope that [NewRope] returned for a non-nil buffer, or that
    [Insert] or [Remove] derived from it, under settings with
    [JoinLength <= SplitLength + 1], every Leaf holds at most
    [SplitLength] elements. *)
Theorem produced_leaves_within_split st r :
  JoinLength st <= SplitLength st + 1 ->
  produced zero (@non_nil T) st r ->
  Forall (leaf_within st) (nodes r).
Proof. intros Hj H. now apply produced_thresholds. Qed.

(** Under settings with [JoinLength <= SplitLength + 1], the ropes in
    which no Internal node is shorter than [JoinLength] are closed under
    the package's calls: [NewRope] on a non-nil buffer builds one,
    [Remove] with any range keeps one, and so does [Insert] within its
    contract on a well-formed rope when the new length is an [int]. *)
Theorem internal_above_join_kept st :
  JoinLength st <= SplitLength st + 1 ->
  (forall fuel e sp r,
     NewRope zero fuel (mk_slice e sp) st = Ok r ->
     Forall (internal_above (JoinLength st)) (nodes r)) /\
  (forall fuel r start end_ r',
     uses st r -> Forall (internal_above (JoinLength st)) (nodes r) ->
     Remove zero fuel r start end_ = Ok r' ->
     Forall (internal_above (JoinLength st)) (nodes r')) /\
  (forall fuel r index insertion r',
     wf r -> uses st r ->
     Forall (internal_above (JoinLength st)) (nodes r) ->
     0 <= index <= lenf r -> lenf r + len insertion <= max_int ->
     Insert zero fuel r index insertion = Ok r' ->
     Forall (internal_above (JoinLength st)) (nodes r')).
Proof.
  intros Hj. split; [|split].
  - intros fuel e sp r H. apply NewRope_thresholds in H as (_ & H).
    revert H. apply Forall_internal_above_weaken. lia.
  - intros fuel r start end_ r' Hu HF H.
    exact (@Remove_keeps_internal_above fuel st Hj r start end_ r' Hu HF H).
  - intros fuel r index insertion r' Hw Hu HF Hi Hfit H.
    pose proof (lenl_nonneg (elems_of insertion)) as Hx.
    fold (len insertion) in Hx.
    pose proof (wf_lenf_nonneg _ Hw) as Hn.
    pose proof (@Insert_sound fuel st insertion r Hw Hu index r' Hi Hfit H)
      as (Hw' & _ & _ & Hl').
    eapply Insert_keeps_internal_above
      with (r := r) (insertion := insertion);
      [exact Hj | lia | exact Hw | exact Hu | lia | exact HF | exact H |].
    rewrite <- (wf_lenf _ Hw'). lia.
Qed.

(** ** What the join writes *)

Lemma drop_repeat (x : T) k n :
  0 <= k <= n ->
  drop k (repeat x (Z.to_nat n)) = repeat x (Z.to_nat (n - k)).
Proof.
  intros H. unfold drop.
  replace (Z.to_nat n) with (Z.to_nat k + Z.to_nat (n - k))%nat by lia.
  rewrite repeat_app. rewrite skipn_app.
  rewrite skipn_all2 by (rewrite repeat_length; lia).
  rewrite repeat_length. now rewrite Nat.sub_diag.
Qed.

(** The join of two well-formed children, when the right child is a
    Leaf or is not longer than the left one: the right child's contents
    are copied over the left child's, and the remaining segment keeps
    the zero value. *)
Lemma adjust_join_eq fuel st l rt :
  wf l -> wf rt ->
  is_Leaf rt \/ lenf rt <= lenf l ->
  lenf l + lenf rt < JoinLength st ->
  adjust zero fuel (mk (nil_slice T) (lenf l + lenf rt) l rt st)
  = Ok (mk (fresh (copy (contents l) (contents rt)
                   ++ repeat zero (Z.to_nat (lenf rt))))
           (lenf l + lenf rt) (null _ _) (null _ _) st).
Proof.
  intros Hwl Hwr Hshape Hj.
  pose proof (wf_lenf_nonneg _ Hwl). pose proof (wf_lenf_nonneg _ Hwr).
  pose proof (wf_lenf _ Hwl) as Hcl. pose proof (wf_lenf _ Hwr) as Hcr.
  unfold adjust, adjust_with.
  destruct (Z.ltb_spec (lenf l + lenf rt) (JoinLength st)); [|lia].
  rewrite make_Ok by lia. cbn [bind].
  rewrite (Copy_wf _ Hwl) by (rewrite lenl_repeat; lia). cbn [bind].
  rewrite (wf_length_of _ Hwl). cbn [bind].
  rewrite drop_repeat by lia.
  replace (lenf l + lenf rt - lenf l) with (lenf rt) by lia.
  rewrite window_to_Ok by (rewrite lenl_app, lenl_repeat; lia).
  cbn [bind]. set (zs := repeat zero (Z.to_nat (lenf rt))).
  assert (E1 : take (lenf l) (contents l ++ zs) = contents l)
    by (rewrite Hcl; apply take_lenl_app).
  assert (E2 : drop (lenf l) (contents l ++ zs) = zs)
    by (rewrite Hcl; apply drop_lenl_app).
  rewrite E1, E2.
  assert (Hcopy : Copy rt (contents l)
                  = Ok (copy (contents l) (contents rt))).
  { destruct Hshape as [Hleaf | Hle].
    - destruct rt as [|[|e sp] n l' rt' st']; cbn in Hleaf;
        [contradiction | contradiction | reflexivity].
    - rewrite (Copy_wf _ Hwr) by lia.
      rewrite copy_fits by lia. now rewrite <- Hcr. }
  rewrite Hcopy. reflexivity.
Qed.

(** The join: the buffer of the new Leaf is the right child's [Value()]
    copied over the left child's [Value()], followed by as many zero
    values as the right child has elements. *)
Theorem adjust_join_buffer fuel st l rt vl vr :
  wf l -> wf rt ->
  is_Leaf rt \/ lenf rt <= lenf l ->
  lenf l + lenf rt < JoinLength st ->
  Value zero l = Ok vl -> Value zero rt = Ok vr ->
  adjust zero fuel (mk (nil_slice T) (lenf l + lenf rt) l rt st)
  = Ok (mk (fresh (copy vl vr ++ repeat zero (Z.to_nat (lenl vr))))
           (lenf l + lenf rt) (null _ _) (null _ _) st).
Proof.
  intros Hwl Hwr Hshape Hj Hvl Hvr.
  rewrite (Value_wf _ Hwl) in Hvl. rewrite (Value_wf _ Hwr) in Hvr.
  inversion Hvl; inversion Hvr; subst.
  rewrite <- (wf_lenf _ Hwr). now apply adjust_join_eq.
Qed.

(** ** [Remove] returns *)

(** A well-formed node marked as split whose cached length is below the
    bound of its kind is none: it is a Leaf. *)
Lemma short_is_Leaf least r :
  wf r -> Forall (internal_above least) (nodes r) -> lenf r < least ->
  is_Leaf r.
Proof.
  destruct r as [|[|e sp] n l rt st]; cbn [wf]; [tauto| |].
  - intros _ HF Hn. apply Forall_nodes_inv in HF as (Hroot & _).
    cbn in *. lia.
  - intros (_ & -> & ->) _ _. exact I.
Qed.

(** Within the contract [Remove] returns, under settings with
    [SplitLength >= 1], when the join threshold is at most one or no
    Internal node is shorter than it. *)
Lemma Remove_returns fuel st :
  1 <= SplitLength st ->
  JoinLength st <= SplitLength st + 1 ->
  forall r, wf r -> uses st r -> lenf r <= max_int ->
  JoinLength st <= 1 \/ Forall (internal_above (JoinLength st)) (nodes r) ->
  lenf r <= Z.of_nat fuel ->
  forall start end_,
  0 <= start <= end_ -> end_ <= lenf r ->
  exists r', Remove zero (S fuel) r start end_ = Ok r'.
Proof.
  intros Hst Hj. pose proof max_int_pos as Hmax.
  induction r as [|v n l IHl rt IHrt st']; [simpl; tauto|].
  intros Hw Hu Hfit Hinv Hf start end_ Hs He.
  destruct (Z.eq_dec start end_) as [->|Hne].
  { exists (mk v n l rt st').
    destruct v; cbn [Remove]; now rewrite Z.eqb_refl. }
  destruct v as [|e sp].
  - pose proof Hw as (Hwl & Hwr & Hn). pose proof Hu as (-> & Hul & Hur).
    pose proof (wf_lenf_nonneg _ Hwl). pose proof (wf_lenf_nonneg _ Hwr).
    cbn [lenf] in *.
    assert (Hinvl : JoinLength st <= 1
                    \/ Forall (internal_above (JoinLength st)) (nodes l)).
    { destruct Hinv as [?|HF]; [now left | right].
      now apply Forall_nodes_inv in HF. }
    assert (Hinvr : JoinLength st <= 1
                    \/ Forall (internal_above (JoinLength st)) (nodes rt)).
    { destruct Hinv as [?|HF]; [now left | right].
      now apply Forall_nodes_inv in HF. }
    cbn [Remove]. destruct (Z.eqb_spec start end_); [lia|].
    rewrite (wf_length_of _ Hwl). cbn [bind].
    rewrite bound_left by lia.
    destruct (IHl Hwl Hul) with (start := Z.min start (lenf l))
                                (end_ := Z.min end_ (lenf l))
      as (cl & Hcl); auto; try lia.
    rewrite Hcl. cbn [bind].
    rewrite (wf_length_of _ Hwr). cbn [bind].
    rewrite !sub_id by (rewrite min_int_neg; lia).
    rewrite (@bound_right _ _ _ (lenf rt)) by lia.
    destruct (IHrt Hwr Hur) with (start := Z.max 0 (start - lenf l))
                                 (end_ := Z.max 0 (end_ - lenf l))
      as (cr & Hcr); auto; try lia.
    rewrite Hcr. cbn [bind].
    pose proof Hcl as Hcl'. pose proof Hcr as Hcr'.
    apply Remove_sound with (st := st) in Hcl' as (Hwcl & Hucl & Hlcl & _);
      auto; try lia.
    apply Remove_sound with (st := st) in Hcr' as (Hwcr & Hucr & Hlcr & _);
      auto; try lia.
    pose proof (wf_lenf_nonneg _ Hwcl). pose proof (wf_lenf_nonneg _ Hwcr).
    rewrite (wf_length_of _ Hwcl), (wf_length_of _ Hwcr). cbn [bind].
    rewrite add_id by (rewrite min_int_neg; lia).
    destruct (Z.lt_ge_cases (lenf cl + lenf cr) (JoinLength st)) as [Hlt|Hge].
    + rewrite adjust_join_eq; eauto.
      destruct Hinvr as [Hj1 | HF]; [right; lia | left].
      eapply short_is_Leaf; [exact Hwcr | | ].
      * eapply Remove_keeps_internal_above; [exact Hj | exact Hur | exact HF
                                            | exact Hcr].
      * lia.
    + unfold adjust, adjust_with.
      destruct (Z.ltb_spec (lenf cl + lenf cr) (JoinLength st)); [lia|].
      eauto.
  - destruct Hw as (Hn & -> & ->). destruct Hu as (-> & _). subst n.
    cbn [lenf] in *.
    rewrite Remove_leaf by lia.
    apply NewRope_returns; [assumption|].
    rewrite lenl_app, lenl_take, lenl_drop by lia. lia.
Qed.


(** Under a join threshold of at most one the join copies nothing that
    matters: on every well-formed rope [Remove] within its contract
    returns a rope whose [Value()] is the receiver's without the
    range. *)
Theorem Remove_without_join fuel st r start end_ :
  1 <= SplitLength st -> JoinLength st <= 1 ->
  wf r -> uses st r -> lenf r <= max_int ->
  lenf r <= Z.of_nat fuel ->
  0 <= start <= end_ -> end_ <= lenf r ->
  exists v r',
    Value zero r = Ok v /\
    Remove zero (S fuel) r start end_ = Ok r' /\
    Value zero r' = Ok (take start v ++ drop end_ v).
Proof.
  intros Hst Hj Hw Hu Hfit Hf Hs He.
  destruct (@Remove_returns fuel st Hst ltac:(lia) r Hw Hu Hfit
              (or_introl Hj) Hf start end_ Hs He) as (r' & Hr').
  exists (contents r), r'. split; [now apply Value_wf|].
  split; [exact Hr'|].
  apply Remove_sound with (st := st) in Hr' as (Hw' & _ & _ & Hc); auto.
  rewrite (Value_wf _ Hw'). now rewrite Hc.
Qed.

(** Under a join threshold of at most one, removing what was inserted
    gives back the receiver's [Value()]. *)
Theorem Insert_then_Remove fuel st insertion r index :
  1 <= SplitLength st -> JoinLength st <= 1 ->
  wf r -> uses st r ->
  0 <= index <= lenf r ->
  lenf r + len insertion <= max_int ->
  lenf r + len insertion <= Z.of_nat fuel ->
  exists r1 r2,
    Insert zero (S fuel) r index insertion = Ok r1 /\
    Remove zero (S fuel) r1 index (index + len insertion) = Ok r2 /\
    Value zero r2 = Value zero r.
Proof.
  intros Hst Hj Hw Hu Hi Hfit Hf.
  pose proof (lenl_nonneg (elems_of insertion)) as Hx. fold (len insertion) in Hx.
  destruct (@Insert_ok fuel st insertion r index)
    as (r1 & Hr1 & Hw1 & Hu1 & Hc1 & Hl1); auto.
  destruct (@Remove_returns fuel st Hst ltac:(lia) r1 Hw1 Hu1 ltac:(lia)
              (or_introl Hj) ltac:(lia) index (index + len insertion))
    as (r2 & Hr2); try lia.
  exists r1, r2. split; [exact Hr1|]. split; [exact Hr2|].
  apply Remove_sound with (st := st) in Hr2 as (Hw2 & _ & _ & Hc2);
    auto; try lia.
  rewrite (Value_wf _ Hw2), (Value_wf _ Hw). f_equal.
  rewrite (Hc2 Hj), Hc1.
  pose proof (wf_lenf _ Hw) as Hc. set (c := contents r) in *.
  assert (Ht : lenl (take index c) = index) by (apply lenl_take; lia).
  rewrite <- Ht at 1. rewrite take_lenl_app.
  rewrite app_assoc.
  replace (index + len insertion)
    with (lenl (take index c ++ elems_of insertion))
    by (rewrite lenl_app; unfold len; lia).
  rewrite drop_lenl_app. apply take_drop.
Qed.

(** ** [Remove] with an end beyond the length *)

(** On an Internal node [bound] cuts an end beyond the length: the call
    is the call with the length as end. *)
Theorem Remove_truncates_on_Internal fuel r start end_ :
  wf r -> is_Internal r -> lenf r <= max_int ->
  0 <= start < lenf r ->
  lenf r <= end_ <= max_int ->
  Remove zero fuel r start end_ = Remove zero fuel r start (lenf r).
Proof.
  intros Hw Hint Hfit Hs He. pose proof max_int_pos as Hmax.
  destruct r as [|[|e sp] n l rt st]; cbn in Hint; try contradiction.
  destruct Hw as (Hwl & Hwr & Hn).
  pose proof (wf_lenf_nonneg _ Hwl). pose proof (wf_lenf_nonneg _ Hwr).
  cbn [lenf] in *. cbn [Remove].
  destruct (Z.eqb_spec start end_); [lia|].
  destruct (Z.eqb_spec start n); [lia|].
  rewrite (wf_length_of _ Hwl), (wf_length_of _ Hwr). cbn [bind].
  rewrite !sub_id by (rewrite min_int_neg; lia).
  replace (bound start end_ (lenf l)) with (bound start n (lenf l)).
  2:{ unfold bound. rewrite !Z.gtb_ltb.
      destruct (Z.ltb_spec end_ 0); destruct (Z.ltb_spec n 0);
        destruct (Z.ltb_spec (lenf l) end_); destruct (Z.ltb_spec (lenf l) n);
        f_equal; lia. }
  replace (bound (start - lenf l) (end_ - lenf l) (lenf rt))
    with (bound (start - lenf l) (n - lenf l) (lenf rt)).
  2:{ unfold bound. rewrite !Z.gtb_ltb.
      destruct (Z.ltb_spec (end_ - lenf l) 0);
        destruct (Z.ltb_spec (n - lenf l) 0);
        destruct (Z.ltb_spec (lenf rt) (end_ - lenf l));
        destruct (Z.ltb_spec (lenf rt) (n - lenf l)); f_equal; lia. }
  reflexivity.
Qed.

(** On a Leaf nothing cuts it: a non-empty range with an end beyond the
    length makes [Remove] panic, whatever the start. *)
Theorem Remove_beyond_Leaf_panics fuel r start end_ :
  wf r -> is_Leaf r ->
  start <> end_ -> lenf r < end_ ->
  Remove zero fuel r start end_ = Panic.
Proof.
  intros Hw Hleaf Hne He.
  destruct r as [|[|e sp] n l rt st]; cbn in Hleaf; try contradiction.
  destruct Hw as (Hn & _). subst n. cbn [lenf] in *. cbn [Remove].
  destruct (Z.eqb_spec start end_); [contradiction|].
  unfold make. destruct (sub (lenl e) (sub end_ start) <? 0);
    cbn [bind]; [reflexivity|].
  unfold slice_to.
  destruct ((0 <=? start) && (start <=? lenl e + lenl sp));
    cbn [bind]; [|reflexivity].
  unfold window_from.
  destruct ((0 <=? start) && (start <=? _)); cbn [bind]; [|reflexivity].
  unfold slice_from.
  destruct (Z.leb_spec 0 end_); destruct (Z.leb_spec end_ (lenl e));
    cbn [andb bind]; try reflexivity. lia.
Qed.

(** ** [Slice] of an empty or inverted range *)


Section WithRatio.

Variable ratio_gt : Z -> Z -> float32 -> bool.

(** [NewRope] on a nil slice yields no rope that can be used: it panics
    when [JoinLength > 0]; otherwise it returns a node of length zero on
    which [Value], [Insert], [Remove] of a non-empty range and
    [Rebalance] panic. *)
Theorem NewRope_nil_unusable st fuel :
  (0 < JoinLength st ->
   NewRope zero (S fuel) (nil_slice T) st = Panic) /\
  (JoinLength st <= 0 ->
   exists r,
     NewRope zero (S fuel) (nil_slice T) st = Ok r /\
     Length r = Ok 0 /\
     Value zero r = Panic /\
     (forall f index insertion, Insert zero f r index insertion = Panic) /\
     (forall f start end_,
        start <> end_ -> Remove zero f r start end_ = Panic) /\
     (forall f, Rebalance ratio_gt zero f r = Panic)).
Proof.
  rewrite NewRope_nil. split; intros Hj.
  - destruct (Z.ltb_spec 0 (JoinLength st)); [reflexivity | lia].
  - destruct (Z.ltb_spec 0 (JoinLength st)); [lia|].
    exists (childless T st). repeat split; try reflexivity.
    intros f start end_ Hne. cbn [childless Remove].
    destruct (Z.eqb_spec start end_); [contradiction | reflexivity].
Qed.

(** [Rebalance] leaves a well-formed rope well-formed and keeps its
    [Length()]. *)
Theorem Rebalance_keeps_Length fuel r r' :
  wf r ->
  Rebalance ratio_gt zero fuel r = Ok r' ->
  wf r' /\ Length r' = Length r.
Proof.
  intros Hw H. apply Rebalance_sound in H as (Hw' & _ & Hl); auto.
  split; [exact Hw'|]. unfold Length.
  rewrite (wf_length_of _ Hw'), (wf_length_of _ Hw). now rewrite Hl.
Qed.

End WithRatio.

(** [Insert] on a node marked as split descends into one child. *)
Lemma Insert_internal fuel n l rt st index insertion ll :
  length_of l = Ok ll ->
  Insert zero fuel (mk (nil_slice T) n l rt st) index insertion
  = if index <? ll
    then cl <- Insert zero fuel l index insertion ;;
         Ok (mk (nil_slice T) (add n (len insertion)) cl rt st)
    else cr <- Insert zero fuel rt (sub index ll) insertion ;;
         Ok (mk (nil_slice T) (add n (len insertion)) l cr st).
Proof. intros H. cbn [Insert]. rewrite H. reflexivity. Qed.

(** A buffer of [math.MaxInt64] elements under a split threshold of
    [2^62] becomes two Leaves of [2^62 - 1] and [2^62] elements; the
    insertion of one element at 0 goes to the left Leaf and adds one to
    the cached length of the root, which wraps around. *)
Lemma Insert_past_max_int st (e : list T) (x : T) :
  lenl e = max_int -> SplitLength st = 2 ^ 62 ->
  exists r r',
    NewRope zero 2 (fresh e) st = Ok r /\
    Insert zero 2 r 0 (fresh [x]) = Ok r' /\
    lenf r' = min_int /\
    lenl (contents r') = 2 ^ 63 /\
    ~ Forall (@length_exact float32 T) (nodes r').
Proof.
  intros He Hst.
  assert (Hh : Z.quot (lenl e) 2 = 2 ^ 62 - 1)
    by (rewrite He; reflexivity).
  assert (Hl : lenl (take (2 ^ 62 - 1) e) = 2 ^ 62 - 1)
    by (apply lenl_take; rewrite He; unfold max_int; lia).
  assert (Hr : lenl (drop (2 ^ 62 - 1) e) = 2 ^ 62)
    by (rewrite lenl_drop; rewrite He; unfold max_int; lia).
  assert (Hx : len (fresh [x]) = 1) by reflexivity.
  set (left1 := take 0 (take (2 ^ 62 - 1) e) ++ [x]
                ++ drop 0 (take (2 ^ 62 - 1) e)).
  assert (Hl1 : lenl left1 = 2 ^ 62).
  { unfold left1. rewrite !lenl_app, lenl_take, lenl_drop by lia.
    change (lenl [x]) with 1. lia. }
  exists (mk (nil_slice T) (lenl e)
             (mk (mk_slice (take (2 ^ 62 - 1) e) (drop (2 ^ 62 - 1) e ++ []))
                 (lenl (take (2 ^ 62 - 1) e)) (null _ _) (null _ _) st)
             (mk (mk_slice (drop (2 ^ 62 - 1) e) [])
                 (lenl (drop (2 ^ 62 - 1) e)) (null _ _) (null _ _) st)
             st).
  exists (mk (nil_slice T) (add (lenl e) (len (fresh [x])))
             (mk (mk_slice left1 []) (lenl left1) (null _ _) (null _ _) st)
             (mk (mk_slice (drop (2 ^ 62 - 1) e) [])
                 (lenl (drop (2 ^ 62 - 1) e)) (null _ _) (null _ _) st)
             st).
  split; [|split].
  - unfold fresh. rewrite NewRope_split by (rewrite He, Hst; unfold max_int; lia).
    rewrite Hh.
    rewrite NewRope_leaf by (rewrite Hl, Hst; lia).
    cbn [bind].
    rewrite NewRope_leaf by (rewrite Hr, Hst; lia).
    cbn [bind]. reflexivity.
  - rewrite (@Insert_internal 2 _ _ _ _ 0 (fresh [x])
               (lenl (take (2 ^ 62 - 1) e))) by reflexivity.
    rewrite Hl at 1. change (0 <? 2 ^ 62 - 1) with true. cbv iota.
    rewrite Insert_leaf by (rewrite Hl, ?Hx; unfold max_int; lia).
    change (elems_of (fresh [x])) with [x]. fold left1.
    change (fresh left1) with (mk_slice left1 []).
    rewrite NewRope_leaf by (rewrite Hl1, Hst; lia).
    cbn [bind]. reflexivity.
  - assert (Hroot : add (lenl e) (len (fresh [x])) = min_int)
      by (rewrite He, Hx; reflexivity).
    assert (Hsz : lenl (left1 ++ drop (2 ^ 62 - 1) e) = 2 ^ 63)
      by (rewrite lenl_app, Hl1, Hr; lia).
    split; [exact Hroot|]. split; [exact Hsz|].
    intros HF. apply Forall_inv in HF. destruct HF as (Hexact & _).
    cbn [lenf contents] in Hexact.
    rewrite Hroot, Hsz in Hexact. discriminate Hexact.
Qed.

End Correctness.

(** * The package's tests, and the claims on concrete ropes *)

Module Examples.

Import Tests.

Ltac by_computation :=
  vm_compute; first [reflexivity | discriminate | exact I
                    | repeat split; first [reflexivity | discriminate]].

(** [TestInsert] *)
Example TestInsert :
  (rope <- NewRope 0 4 (fresh originalValue) testSettings ;;
   newRope <- Insert 0 4 rope 2 (fresh [-1; -2; -3]) ;;
   v <- Value 0 rope ;;
   v' <- Value 0 newRope ;;
   Ok (v, v'))
  = Ok (originalValue, [0; 1; -1; -2; -3; 2; 3; 4; 5; 6; 7]).
Proof. reflexivity. Qed.

(** [TestDelete] *)
Example TestDelete :
  (rope <- NewRope 0 4 (fresh originalValue) testSettings ;;
   newRope <- Remove 0 4 rope 1 6 ;;
   v <- Value 0 rope ;;
   v' <- Value 0 newRope ;;
   Ok (v, v'))
  = Ok (originalValue, [0; 6; 7]).
Proof. reflexivity. Qed.


(** C1: the rope of [tens] under the test settings, [Remove(0, 7)].  The
    left Leaf becomes empty, the right Leaf [[17]]; the new node has
    length [1 < JoinLength] and is joined.  The join copies the right
    child into the window [r.value[:r.left.length]], which is empty, so
    the buffer keeps the zero value: [Value()] is [[0]], where
    [tens[:0] + tens[7:]] is [[17]]. *)
Theorem Remove_drops_right_part :
  NewRope 0 4 (fresh tens) testSettings = Ok tensRope /\
  Remove 0 4 tensRope 0 7 = Ok (leaf testSettings [0]) /\
  Value 0 (leaf testSettings [0]) = Ok [0] /\
  take 0 tens ++ drop 7 tens = [17].
Proof. repeat split; reflexivity. Qed.

(** C2: the join of an Internal node with the children [[10; 11]] and
    [[19]] under a join threshold of four.  The right child is copied
    over the first segment instead of the remaining one: the buffer is
    [[19; 11; 0]], where the children's contents in order are
    [[10; 11; 19]].  Under the test settings the join of [[]] and [[17]]
    leaves [[0]]. *)
Theorem join_overwrites_left :
  adjust 0 1 (internal wideSettings (leaf wideSettings [10; 11])
                                    (leaf wideSettings [19]))
  = Ok (leaf wideSettings [19; 11; 0]) /\
  contents (leaf wideSettings [10; 11]) ++ contents (leaf wideSettings [19])
  = [10; 11; 19] /\
  adjust 0 1 (internal testSettings (leaf testSettings [])
                                    (leaf testSettings [17]))
  = Ok (leaf testSettings [0]).
Proof. repeat split; reflexivity. Qed.

(** The node of the previous example is one that [Remove] builds:
    [Remove(2, 9)] on the rope of ten elements. *)
Example join_reached_by_Remove :
  (rope <- NewRope 0 4 (fresh [10; 11; 12; 13; 14; 15; 16; 17; 18; 19])
                  wideSettings ;;
   Remove 0 4 rope 2 9)
  = Ok (leaf wideSettings [19; 11; 0]).
Proof. reflexivity. Qed.

(** With a split threshold of zero a buffer of one element is split into
    an empty buffer and itself, at every depth. *)
Lemma NewRope_zero_split_diverges : forall fuel sp,
  NewRope 0 fuel (mk_slice [1] sp) zeroSplitSettings = Timeout.
Proof.
  induction fuel as [|fuel IH]; intros sp; [reflexivity|].
  rewrite NewRope_split by (vm_compute; reflexivity).
  change (Z.quot (lenl [1]) 2) with 0.
  change (drop 0 [1]) with [1]. rewrite IH.
  destruct fuel as [|fuel]; reflexivity.
Qed.

Lemma lenl_hugeValue : lenl hugeValue = 2 ^ 62.
Proof. unfold hugeValue. apply lenl_repeat. lia. Qed.

(** C3, counterexample.  Under the thresholds (0, -1), which satisfy
    [SplitLength > JoinLength], the rope built from the empty non-nil
    sequence is a Leaf and [Insert(0, [1])] on it returns at no depth.
    Under the thresholds (4, 0) [NewRope] returns for the nil slice a
    node marked as split without children, and [Insert] on it panics.
    On a Leaf of [2^62] elements of size zero, the insertion of as many
    elements panics: the new length is no [int]. *)
Lemma Insert_fails_outside_preconditions :
  (NewRope 0 1 (fresh []) zeroSplitSettings = Ok (leaf zeroSplitSettings []) /\
   forall fuel r',
     Insert 0 fuel (leaf zeroSplitSettings []) 0 (fresh [1]) <> Ok r') /\
  (NewRope 0 1 (nil_slice Z) noJoinSettings = Ok (childless Z noJoinSettings) /\
   forall fuel r',
     Insert 0 fuel (childless Z noJoinSettings) 0 (fresh [1]) <> Ok r') /\
  (NewRope tt 1 (fresh hugeValue) hugeSettings
   = Ok (mk (fresh hugeValue) (lenl hugeValue) (null float32 unit) (null float32 unit)
            hugeSettings) /\
   forall fuel r',
     Insert tt fuel
       (mk (fresh hugeValue) (lenl hugeValue) (null float32 unit) (null float32 unit)
           hugeSettings)
       0 (fresh hugeValue) <> Ok r').
Proof.
  split; [|split]; split.
  - reflexivity.
  - intros fuel r'. unfold leaf, fresh.
    rewrite Insert_leaf by by_computation.
    cbn [take drop elems_of app firstn skipn Z.to_nat].
    unfold fresh. rewrite NewRope_zero_split_diverges. discriminate.
  - reflexivity.
  - intros fuel r'. cbn. discriminate.
  - unfold fresh. apply NewRope_leaf. rewrite lenl_hugeValue.
    unfold hugeSettings, SplitLength, max_int. lia.
  - intros fuel r'. unfold fresh.
    rewrite Insert_leaf_overflow; [discriminate | | |];
      unfold len; cbn [elems_of]; rewrite lenl_hugeValue;
      unfold max_int; lia.
Qed.

(** C8, counterexample.  The nil slice has length [0 <= SplitLength].
    Under the test settings the join fires on it and reads the missing
    left child; under the thresholds (4, 0) [NewRope] returns a node that
    is no Leaf. *)
Lemma NewRope_nil_is_no_Leaf :
  len (nil_slice Z) <= SplitLength testSettings /\
  JoinLength testSettings < SplitLength testSettings /\
  (forall fuel, NewRope 0 (S fuel) (nil_slice Z) testSettings = Panic) /\
  JoinLength noJoinSettings < SplitLength noJoinSettings /\
  (forall fuel,
     NewRope 0 (S fuel) (nil_slice Z) noJoinSettings
     = Ok (childless Z noJoinSettings)) /\
  ~ is_Leaf (childless Z noJoinSettings).
Proof.
  repeat split; try (vm_compute; discriminate); try reflexivity.
  intros H. exact H.
Qed.

Lemma lenl_maxValue : lenl maxValue = max_int.
Proof. unfold maxValue. apply lenl_repeat. unfold max_int. lia. Qed.

(** C6, counterexample.  [math.MaxInt64] elements of size zero, under a
    split threshold of [2^62]: [NewRope] returns an Internal node over
    two Leaves of [2^62 - 1] and [2^62] elements.  [Insert(0, [x])] adds
    one to the cached length of the root, which wraps to the least
    [int], and inserts into the left Leaf: the rope returned holds
    [2^63] elements under a root whose cached length is [-2^63]. *)
Lemma Insert_wraps_cached_length :
  exists r r',
    NewRope tt 2 (fresh maxValue) halfSettings = Ok r /\
    Insert tt 2 r 0 (fresh [tt]) = Ok r' /\
    lenf r' = min_int /\
    lenl (contents r') = 2 ^ 63 /\
    ~ Forall (@length_exact float32 unit) (nodes r').
Proof.
  exact (@Insert_past_max_int float32 unit tt halfSettings maxValue tt
           lenl_maxValue eq_refl).
Qed.

(** When the difference of an inverted range wraps around, [make] gets
    a positive length: [Slice(math.MaxInt64, math.MinInt64 + 5)] on an
    empty Internal node returns six zero values. *)
Example Slice_wrapped_range :
  Slice 0 (internal testSettings (leaf testSettings [])
                                 (leaf testSettings []))
        max_int (min_int + 5)
  = Ok [0; 0; 0; 0; 0; 0].
Proof. reflexivity. Qed.

(** ** The claims at concrete ropes *)

Lemma Insert_spliced_witness :
  exists r r',
    NewRope 0 12 (fresh originalValue) testSettings = Ok r /\
    Insert 0 12 r 2 (fresh [-1; -2; -3]) = Ok r' /\
    Value 0 r' = Ok (take 2 (elems_of (fresh originalValue))
                     ++ elems_of (fresh [-1; -2; -3])
                     ++ drop 2 (elems_of (fresh originalValue))) /\
    Value 0 r = Ok (elems_of (fresh originalValue)).
Proof.
  apply (@Insert_spliced float32 Z 0 testSettings (fresh originalValue) 2
           (fresh [-1; -2; -3]) 11); by_computation.
Defined.

Lemma Rebalance_keeps_Value_witness :
  let r := internal testSettings (leaf testSettings [1])
                                 (leaf testSettings [2; 3; 4]) in
  wf r /\
  (forall fuel r',
     Rebalance float32_ratio_gt 0 fuel r = Ok r' -> Value 0 r' = Value 0 r) /\
  (forall st fuel,
     uses st r -> 1 <= SplitLength st -> lenf r <= Z.of_nat fuel ->
     exists r',
       Rebalance float32_ratio_gt 0 (S fuel) r = Ok r' /\
       Value 0 r' = Value 0 r).
Proof.
  intros r. split; [by_computation|].
  apply (@Rebalance_keeps_Value float32 Z 0 float32_ratio_gt r). by_computation.
Defined.

Lemma Slice_is_Value_range_witness :
  exists v s,
    Value 0 tensRope = Ok v /\
    slice_range v [] 3 6 = Ok s /\
    Slice 0 tensRope 3 6 = Ok (elems_of s).
Proof.
  apply (@Slice_is_Value_range float32 Z 0 tensRope 3 6 8); by_computation.
Defined.

Lemma tens_rope_produced (P : slice Z -> Prop) :
  P (fresh tens) -> produced 0 P testSettings (leaf testSettings [0]).
Proof.
  intros HP.
  apply (@produced_Remove float32 Z 0 P testSettings 4 tensRope 0 7).
  - apply (@produced_NewRope float32 Z 0 P testSettings 4 (fresh tens));
      [exact HP | by_computation | reflexivity].
  - reflexivity.
  - by_computation.
Defined.


Lemma NewRope_short_is_Leaf_witness :
  NewRope 0 1 (fresh [1; 2; 3]) testSettings
  = Ok (mk (fresh [1; 2; 3]) (len (fresh [1; 2; 3])) (null float32 Z) (null float32 Z)
           testSettings) /\
  is_Leaf (mk (fresh [1; 2; 3]) (len (fresh [1; 2; 3])) (null float32 Z) (null float32 Z)
              testSettings).
Proof.
  apply (@NewRope_short_is_Leaf float32 Z 0 testSettings (fresh [1; 2; 3]) 0);
    by_computation.
Defined.

Lemma NewRope_terminates_witness :
  (forall e sp lv rv,
     fresh tens = mk_slice e sp ->
     SplitLength testSettings < len (fresh tens) ->
     slice_to e sp (Z.quot (len (fresh tens)) 2) = Ok lv ->
     slice_from e sp (Z.quot (len (fresh tens)) 2) = Ok rv ->
     len lv < len (fresh tens) /\ len rv < len (fresh tens)) /\
  (forall fuel,
     len (fresh tens) <= Z.of_nat fuel ->
     NewRope 0 (S fuel) (fresh tens) testSettings <> Timeout).
Proof.
  apply (@NewRope_terminates float32 Z 0 testSettings (fresh tens)).
  by_computation.
Defined.

Lemma produced_shapes_witness :
  let r := leaf testSettings [0] in
  Forall (@one_shape float32 Z) (nodes r) /\
  (exists v, Value 0 r = Ok v) /\
  (forall dst, lenf r <= lenl dst -> exists d, Copy r dst = Ok d) /\
  (forall dst a b,
     0 <= a <= b -> b <= lenf r -> b - a <= lenl dst ->
     exists d, CopySlice r dst a b = Ok d) /\
  (forall fuel, Rebalance float32_ratio_gt 0 fuel r <> Panic).
Proof.
  intros r.
  apply (@produced_shapes float32 Z 0 float32_ratio_gt testSettings).
  apply tens_rope_produced. reflexivity.
Defined.

(** ** Further properties at concrete ropes *)

Lemma bound_clamps_witness :
  0 <= fst (bound (-3) 9 4) <= 4 /\
  0 <= snd (bound (-3) 9 4) <= 4 /\
  (-3 <= 9 -> fst (bound (-3) 9 4) <= snd (bound (-3) 9 4)) /\
  (0 <= -3 <= 4 -> fst (bound (-3) 9 4) = -3) /\
  (0 <= 9 <= 4 -> snd (bound (-3) 9 4) = 9).
Proof. apply (@bound_clamps (-3) 9 4). by_computation. Defined.

Lemma NewRope_round_trip_witness :
  exists r,
    NewRope 0 9 (mk_slice tens []) testSettings = Ok r /\
    Value 0 r = Ok tens /\
    Length r = Ok (lenl tens).
Proof.
  apply (@NewRope_round_trip float32 Z 0 testSettings tens [] 8); by_computation.
Defined.

Lemma NewRope_respects_split_witness :
  Forall (leaf_within testSettings) (nodes tensRope) /\
  Forall (internal_above (SplitLength testSettings + 1)) (nodes tensRope).
Proof.
  apply (@NewRope_respects_split float32 Z 0 testSettings 4 tens []).
  reflexivity.
Defined.

Lemma NewRope_maxDepth_witness :
  exists d, maxDepth tensRope = Ok d /\ 1 <= d <= Z.of_nat 1 + 1.
Proof.
  apply (@NewRope_maxDepth float32 Z 0 testSettings) with (fuel := 4%nat)
    (e := tens) (sp := @nil Z); by_computation.
Defined.

Lemma NewRope_needs_positive_split_witness :
  NewRope 0 5 (mk_slice [1] []) zeroSplitSettings = Timeout.
Proof.
  apply (@NewRope_needs_positive_split float32 Z 0 zeroSplitSettings);
    by_computation.
Defined.


Lemma Copy_short_destination_panics_witness :
  Copy tensRope [1; 2; 3] = Panic.
Proof.
  apply (@Copy_short_destination_panics float32 Z); by_computation.
Defined.


Lemma Insert_on_any_rope_witness :
  exists v n r',
    Value 0 tensRope = Ok v /\ Length tensRope = Ok n /\
    Insert 0 11 tensRope 5 (fresh [1; 2]) = Ok r' /\
    Value 0 r' = Ok (take 5 v ++ elems_of (fresh [1; 2]) ++ drop 5 v) /\
    Length r' = Ok (n + len (fresh [1; 2])).
Proof.
  apply (@Insert_on_any_rope float32 Z 0 10 testSettings (fresh [1; 2]) tensRope 5);
    by_computation.
Defined.

Lemma Insert_out_of_range_panics_witness :
  Insert 0 4 tensRope 9 (fresh [1]) = Panic.
Proof.
  apply (@Insert_out_of_range_panics float32 Z 0 4 (fresh [1]) tensRope);
    try by_computation.
  right. by_computation.
Defined.

Lemma Insert_twice_witness :
  exists r1 r2 r12,
    Insert 0 13 tensRope 3 (fresh [1; 2]) = Ok r1 /\
    Insert 0 13 r1 (3 + lenl [1; 2]) (fresh [3; 4]) = Ok r2 /\
    Insert 0 13 tensRope 3 (fresh ([1; 2] ++ [3; 4])) = Ok r12 /\
    Value 0 r2 = Value 0 r12.
Proof.
  apply (@Insert_twice float32 Z 0 12 testSettings [1; 2] [3; 4] tensRope 3);
    by_computation.
Defined.

Lemma produced_leaves_within_split_witness :
  Forall (leaf_within testSettings) (nodes (leaf testSettings [0])).
Proof.
  apply (@produced_leaves_within_split float32 Z 0 testSettings);
    [by_computation | apply tens_rope_produced; reflexivity].
Defined.

Lemma internal_above_join_kept_witness :
  Forall (internal_above (JoinLength testSettings)) (nodes tensRope) /\
  match Remove 0 4 tensRope 1 6 with
  | Ok r' =>
    is_Internal r' /\
    Forall (internal_above (JoinLength testSettings)) (nodes r')
  | _ => False
  end /\
  match Insert 0 4 tensRope 5 (fresh [1; 2]) with
  | Ok r' =>
    is_Internal r' /\
    Forall (internal_above (JoinLength testSettings)) (nodes r')
  | _ => False
  end.
Proof.
  destruct (@internal_above_join_kept float32 Z 0 testSettings)
    as (HN & HR & HI); [by_computation|].
  assert (HF : Forall (internal_above (JoinLength testSettings))
                      (nodes tensRope))
    by (apply (HN 4%nat tens []); reflexivity).
  assert (Hwf : wf tensRope) by by_computation.
  assert (Hu : uses testSettings tensRope) by by_computation.
  assert (Hi : 0 <= 5 <= lenf tensRope) by by_computation.
  assert (Hfit : lenf tensRope + len (fresh [1; 2]) <= max_int)
    by by_computation.
  split; [exact HF|]. split.
  - destruct (Remove 0 4 tensRope 1 6) as [r'| |] eqn:E;
      [| vm_compute in E; discriminate E | vm_compute in E; discriminate E].
    split.
    + vm_compute in E. inversion E. exact I.
    + exact (HR 4%nat tensRope 1 6 r' Hu HF E).
  - destruct (Insert 0 4 tensRope 5 (fresh [1; 2])) as [r'| |] eqn:E;
      [| vm_compute in E; discriminate E | vm_compute in E; discriminate E].
    split.
    + vm_compute in E. inversion E. exact I.
    + exact (HI 4%nat tensRope 5 (fresh [1; 2]) r' Hwf Hu HF Hi Hfit E).
Defined.

Lemma adjust_join_buffer_witness :
  adjust 0 1
    (mk (nil_slice Z)
        (lenf (leaf wideSettings [10; 11]) + lenf (leaf wideSettings [19]))
        (leaf wideSettings [10; 11]) (leaf wideSettings [19]) wideSettings)
  = Ok (mk (fresh (copy [10; 11] [19] ++ repeat 0 (Z.to_nat (lenl [19]))))
           (lenf (leaf wideSettings [10; 11]) + lenf (leaf wideSettings [19]))
           (null float32 Z) (null float32 Z) wideSettings).
Proof.
  apply (@adjust_join_buffer float32 Z 0 1 wideSettings
           (leaf wideSettings [10; 11]) (leaf wideSettings [19]));
    try by_computation.
  left. exact I.
Defined.


Lemma Remove_without_join_witness :
  let r := internal noJoinSettings
             (leaf noJoinSettings [10; 11; 12; 13])
             (leaf noJoinSettings [14; 15; 16; 17]) in
  exists v r',
    Value 0 r = Ok v /\
    Remove 0 9 r 0 7 = Ok r' /\
    Value 0 r' = Ok (take 0 v ++ drop 7 v).
Proof.
  intros r.
  apply (@Remove_without_join float32 Z 0 8 noJoinSettings r 0 7); by_computation.
Defined.

Lemma Insert_then_Remove_witness :
  let r := internal noJoinSettings
             (leaf noJoinSettings [10; 11; 12; 13])
             (leaf noJoinSettings [14; 15; 16; 17]) in
  exists r1 r2,
    Insert 0 12 r 3 (fresh [1; 2; 3]) = Ok r1 /\
    Remove 0 12 r1 3 (3 + len (fresh [1; 2; 3])) = Ok r2 /\
    Value 0 r2 = Value 0 r.
Proof.
  intros r.
  apply (@Insert_then_Remove float32 Z 0 11 noJoinSettings (fresh [1; 2; 3]) r 3);
    by_computation.
Defined.

Lemma Remove_truncates_on_Internal_witness :
  Remove 0 4 tensRope 6 100 = Remove 0 4 tensRope 6 (lenf tensRope).
Proof.
  apply (@Remove_truncates_on_Internal float32 Z 0 4 tensRope 6 100);
    by_computation.
Defined.

Lemma Remove_beyond_Leaf_panics_witness :
  Remove 0 4 (leaf testSettings [1; 2; 3]) 1 4 = Panic.
Proof.
  apply (@Remove_beyond_Leaf_panics float32 Z 0 4 (leaf testSettings [1; 2; 3]) 1 4);
    by_computation.
Defined.

Lemma Rebalance_keeps_Length_witness :
  let r := internal testSettings (leaf testSettings [1])
                                 (leaf testSettings [2; 3; 4]) in
  wf (leaf testSettings [1; 2; 3; 4]) /\
  Length (leaf testSettings [1; 2; 3; 4]) = Length r.
Proof.
  intros r.
  apply (@Rebalance_keeps_Length float32 Z 0 float32_ratio_gt 4 r
           (leaf testSettings [1; 2; 3; 4])); by_computation.
Defined.

End Examples.
